(** * jmuxer: the orchestrator class [JMuxmer] of [src/jmuxer.js]

    A shallow embedding of the frame assembler ([getVideoFrames],
    [getAudioFrames]), of the chunk entry point ([feed]), of the keyframe
    ledger pruning ([getSafeClearOffsetOfBuffer]) and of the buffer error
    handler ([onBufferError]), followed by the properties of the
    specification that concern them.

    Numbers.  A JavaScript number that holds an integer is a [Z]; the
    arithmetic of the source on such numbers is exact as long as the values
    stay below 2^53 in magnitude, which is the range this development is
    about.  The only operation of the source that leaves the integers of
    unbounded size is [x | 0], whose result is a signed 32-bit integer: its
    wrap-around is written out in [to_int32].  Times in seconds
    ([kfPosition], [currentTime]) are rationals [Q]; the source only
    compares them and divides an integer by 1000. *)

From Stdlib Require Import ZArith QArith List Bool Ascii String Lia Lqa Sorted.
From Stdlib.Strings Require Import Byte.
Import ListNotations.
Local Open Scope Z_scope.

(** ** JavaScript numbers *)

Module JSNum.

(** ToInt32 of an integer-valued number. *)
Definition to_int32 (z : Z) : Z := (z + 2 ^ 31) mod 2 ^ 32 - 2 ^ 31.

(** [a / b | 0]: the real quotient, truncated towards zero, then ToInt32.
    ([a / 0] is an infinity or NaN, and [| 0] sends both to 0, which is
    also the value of [a ÷ 0].) *)
Definition div_or0 (a b : Z) : Z := to_int32 (a ÷ b).

(** Truthiness of a number. *)
Definition truthy (z : Z) : bool := negb (z =? 0).

(** Truthiness and comparisons of a time in seconds. *)
Definition truthyQ (q : Q) : bool := negb (Qeq_bool q 0).
Definition geQ (x y : Q) : bool := Qle_bool y x.      (* x >= y *)
Definition ltQ (x y : Q) : bool := negb (Qle_bool y x). (* x <  y *)

End JSNum.
Import JSNum.

(** ** Data *)

Definition bytes := list byte.

(** A unit object, as the loop of [getVideoFrames] reads it: [unit.type()],
    [unit.isvcl], [unit.isfmb], [unit.isKeyframe()]. *)
Record NALU := mkNALU {
  payload : bytes;
  ntype : Z;
  isvcl : bool;
  isfmb : bool;
  isKeyframe : bool
}.

(** The parsers and the unit class live in [util/nalu.js],
    [parsers/h264.js] and [parsers/aac.js], which are not part of the
    sources at hand: they are an interface here. *)
Class Parsers := {
  extractNALu : bytes -> list bytes;   (* H264Parser.extractNALu *)
  extractAAC : bytes -> list bytes;    (* AACParser.extractAAC *)
  new_NALU : bytes -> NALU;            (* new NALU(nalu) *)
  parseHeader : NALU -> NALU;          (* H264Parser.parseHeader(unit), which updates the unit *)
  NALU_IDR : Z;
  NALU_NDR : Z
}.

(** A video frame; [duration] is absent until [frames.map] sets it. *)
Record Frame := mkFrame {
  units : list NALU;
  keyFrame : bool;
  duration : option Z
}.

(** An audio frame [{units}], then with its [duration]. *)
Record AudioFrame := mkAudioFrame {
  aunits : bytes;
  aduration : option Z
}.

(** The input of [feed]. *)
Record Data := mkData {
  video : option bytes;
  audio : option bytes;
  data_duration : option Z
}.

(** Calls on the collaborators (logger, remux controller, buffer
    controllers, media source), recorded in the order they are made. *)
Inductive Call :=
| debug_error (msg : string)
| debug_log_frames (n : Z)
| rc_remux (v : list Frame) (a : list AudioFrame)
| bc_feed (type : string) (p : bytes)
| bc_doAppend (type : string)
| bc_initCleanup (type : string) (cleanMaxLimit : Q)
| ms_removeSourceBuffer (type : string)
| ms_endOfStream.

Record Options := mkOptions {
  mode : string;
  opt_clearBuffer : bool
}.

(** The fields of [this] that the modelled methods read or write. *)
Record JMuxmer := mkJMuxmer {
  options : Options;
  frameDuration : Z;
  kfPosition : list Q;
  kfCounter : Z;
  remuxController : bool;                      (* false once destroy() has set it to null *)
  currentTime : Q;                             (* this.node.currentTime *)
  bufferControllers : option (list string);    (* the keys; None until createBuffer *)
  sourceBuffers : list string;                 (* the keys of this.sourceBuffers *)
  ms_sourceBuffers : list string;              (* this.mediaSource.sourceBuffers *)
  calls : list Call
}.

Definition set_kf (this : JMuxmer) (c : Z) (p : list Q) : JMuxmer :=
  mkJMuxmer (options this) (frameDuration this) p c (remuxController this)
            (currentTime this) (bufferControllers this) (sourceBuffers this)
            (ms_sourceBuffers this) (calls this).

Definition call (c : Call) (this : JMuxmer) : JMuxmer :=
  mkJMuxmer (options this) (frameDuration this) (kfPosition this) (kfCounter this)
            (remuxController this) (currentTime this) (bufferControllers this)
            (sourceBuffers this) (ms_sourceBuffers this) (calls this ++ [c]).

Definition set_ms_sourceBuffers (l : list string) (this : JMuxmer) : JMuxmer :=
  mkJMuxmer (options this) (frameDuration this) (kfPosition this) (kfCounter this)
            (remuxController this) (currentTime this) (bufferControllers this)
            (sourceBuffers this) l (calls this).

Definition set_currentTime (t : Q) (this : JMuxmer) : JMuxmer :=
  mkJMuxmer (options this) (frameDuration this) (kfPosition this) (kfCounter this)
            (remuxController this) t (bufferControllers this)
            (sourceBuffers this) (ms_sourceBuffers this) (calls this).

(** The state of a muxer right after its constructor, before the media
    source has opened. *)
Definition new_JMuxmer (o : Options) (fd : Z) : JMuxmer :=
  mkJMuxmer o fd [] 0 true 0%Q None [] [] [].

(** ** Frame assembly: the loop of [getVideoFrames] *)

Record Loop := mkLoop {
  l_units : list NALU;
  l_frames : list Frame;
  l_keyFrame : bool;
  l_vcl : bool
}.

Definition loop_init : Loop := mkLoop [] [] false false.

Section Assembler.
Context {P : Parsers}.

(** [new NALU(nalu)], then [parseHeader] for the two slice types. *)
Definition load (nalu : bytes) : NALU :=
  let unit := new_NALU nalu in
  if (ntype unit =? NALU_IDR) || (ntype unit =? NALU_NDR)
  then parseHeader unit else unit.

(** [units.length && vcl && (unit.isfmb || !unit.isvcl)] *)
Definition closes (st : Loop) (unit : NALU) : bool :=
  negb (List.length (l_units st) =? 0)%nat && l_vcl st
  && (isfmb unit || negb (isvcl unit)).

(** One iteration of [for (let nalu of nalus)]. *)
Definition loop_body (st : Loop) (nalu : bytes) : Loop :=
  let unit := load nalu in
  let st :=
    if closes st unit
    then mkLoop [] (l_frames st ++ [mkFrame (l_units st) (l_keyFrame st) None])
                false false
    else st in
  mkLoop (l_units st ++ [unit]) (l_frames st)
         (l_keyFrame st || isKeyframe unit) (l_vcl st || isvcl unit).

Definition loop (nalus : list bytes) : Loop := fold_left loop_body nalus loop_init.

(** [frames[last].units = frames[last].units.concat(units)]; the source
    reaches it with a last frame only. *)
Definition concat_last (frames : list Frame) (us : list NALU) : list Frame :=
  match rev frames with
  | [] => frames
  | f :: r => rev r ++ [mkFrame (units f ++ us) (keyFrame f) (duration f)]
  end.

(** [if (units.length) { ... }] after the loop. *)
Definition loop_end (st : Loop) : list Frame :=
  if negb (List.length (l_units st) =? 0)%nat then
    if l_vcl st || (List.length (l_frames st) =? 0)%nat
    then l_frames st ++ [mkFrame (l_units st) (l_keyFrame st) None]
    else concat_last (l_frames st) (l_units st)
  else l_frames st.

Definition assemble (nalus : list bytes) : list Frame := loop_end (loop nalus).

(** ** Durations *)

(** [fd = duration ? duration / frames.length | 0 : this.frameDuration] *)
Definition base_duration (this : JMuxmer) (duration : Z) (len : nat) : Z :=
  if truthy duration then div_or0 duration (Z.of_nat len) else frameDuration this.

(** [tt = duration ? (duration - (fd * frames.length)) : 0] *)
Definition remainder (duration fd : Z) (len : nat) : Z :=
  if truthy duration then duration - fd * Z.of_nat len else 0.

(** The callback of [frames.map] in [getVideoFrames]; it updates the
    frame, [tt] (here [tt_]), [this.kfCounter] and [this.kfPosition]. *)
Definition video_frame (fd : Z) (acc : list Frame * Z * JMuxmer) (frame : Frame)
  : list Frame * Z * JMuxmer :=
  let '(done, tt_, this) := acc in
  let d := fd in
  let '(d, tt_) := if 0 <? tt_ then (d + 1, tt_ - 1) else (d, tt_) in
  let counter := kfCounter this + 1 in
  let ledger :=
    if keyFrame frame && opt_clearBuffer (options this)
    then kfPosition this ++ [Qmake (counter * fd) 1000]
    else kfPosition this in
  (done ++ [mkFrame (units frame) (keyFrame frame) (Some d)], tt_,
   set_kf this counter ledger).

Definition getVideoFrames (this : JMuxmer) (nalus : list bytes) (duration : Z)
  : list Frame * JMuxmer :=
  let frames := assemble nalus in
  let fd := base_duration this duration (List.length frames) in
  let tt_ := remainder duration fd (List.length frames) in
  let '(frames, _, this) := fold_left (video_frame fd) frames ([], tt_, this) in
  (frames, call (debug_log_frames (Z.of_nat (List.length frames))) this).

(** The callback of [frames.map] in [getAudioFrames]. *)
Definition audio_frame (fd : Z) (acc : list AudioFrame * Z) (frame : AudioFrame)
  : list AudioFrame * Z :=
  let '(done, tt_) := acc in
  let d := fd in
  let '(d, tt_) := if 0 <? tt_ then (d + 1, tt_ - 1) else (d, tt_) in
  (done ++ [mkAudioFrame (aunits frame) (Some d)], tt_).

Definition getAudioFrames (this : JMuxmer) (aacFrames : list bytes) (duration : Z)
  : list AudioFrame :=
  let frames := map (fun units => mkAudioFrame units None) aacFrames in
  let fd := base_duration this duration (List.length frames) in
  let tt_ := remainder duration fd (List.length frames) in
  fst (fold_left (audio_frame fd) frames ([], tt_)).

End Assembler.

(** ** The keyframe ledger: [getSafeClearOffsetOfBuffer] *)

(** The [for] loop: [adjacentOffset] is the last entry seen before the
    first entry that is [>= offset]. *)
Fixpoint adjacent (offset : Q) (kf : list Q) (adjacentOffset : option Q) : option Q :=
  match kf with
  | [] => adjacentOffset
  | k :: rest =>
      if geQ k offset then adjacentOffset else adjacent offset rest (Some k)
  end.

(** [this.kfPosition.filter(...)], whose callback also assigns [maxLimit]. *)
Fixpoint prune (adjacentOffset : Q) (kf : list Q) (maxLimit : Q) : list Q * Q :=
  match kf with
  | [] => ([], maxLimit)
  | kfDelimiter :: rest =>
      let maxLimit := if ltQ kfDelimiter adjacentOffset then kfDelimiter else maxLimit in
      let '(kept, maxLimit) := prune adjacentOffset rest maxLimit in
      (if geQ kfDelimiter adjacentOffset then kfDelimiter :: kept else kept, maxLimit)
  end.

Definition is_audio (this : JMuxmer) : bool := (mode (options this) =? "audio")%string.

(** [(this.options.mode === 'audio' && offset) || 0] *)
Definition initial_maxLimit (this : JMuxmer) (offset : Q) : Q :=
  if is_audio this && truthyQ offset then offset else 0%Q.

Definition getSafeClearOffsetOfBuffer (this : JMuxmer) (offset : Q) : Q * JMuxmer :=
  let maxLimit := initial_maxLimit this offset in
  match adjacent offset (kfPosition this) None with
  | Some adjacentOffset =>
      if truthyQ adjacentOffset then
        let '(kept, maxLimit) := prune adjacentOffset (kfPosition this) maxLimit in
        (maxLimit, set_kf this (kfCounter this) kept)
      else (maxLimit, this)
  | None => (maxLimit, this)
  end.

(** ** Methods that call collaborators *)

(** A method either returns, or throws (a [TypeError] on a missing
    property); both leave a state behind. *)
Inductive Res (A : Type) :=
| Ok (a : A) (this : JMuxmer)
| Throw (e : string) (this : JMuxmer).
Arguments Ok {A} a this.
Arguments Throw {A} e this.

Definition M (A : Type) := JMuxmer -> Res A.

Definition ret {A} (a : A) : M A := fun this => Ok a this.

Definition bind {A B} (m : M A) (k : A -> M B) : M B :=
  fun this => match m this with
              | Ok a this' => k a this'
              | Throw e this' => Throw e this'
              end.

Definition get {A} (f : JMuxmer -> A) : M A := fun this => Ok (f this) this.
Definition update (f : JMuxmer -> JMuxmer) : M unit := fun this => Ok tt (f this).
Definition throw {A} (e : string) : M A := fun this => Throw e this.
Definition when (b : bool) (m : M unit) : M unit := if b then m else ret tt.

Declare Scope jmuxer_scope.
Delimit Scope jmuxer_scope with jm.
Notation "x <- m ;; k" := (bind m (fun x => k))
  (at level 61, m at next level, right associativity) : jmuxer_scope.
Notation "m ;; k" := (bind m (fun _ => k))
  (at level 61, right associativity) : jmuxer_scope.

Definition has_key (type : string) (keys : list string) : bool :=
  existsb (String.eqb type) keys.

(** The members that a plain object ([{}]) inherits from
    [Object.prototype]: [obj[key]] finds them when [key] is not a key of
    [obj] itself, and each of them is truthy. *)
Definition Object_prototype : list string :=
  ["constructor"; "hasOwnProperty"; "isPrototypeOf"; "propertyIsEnumerable";
   "toLocaleString"; "toString"; "valueOf"; "__proto__";
   "__defineGetter__"; "__defineSetter__"; "__lookupGetter__"; "__lookupSetter__"]%string.

Fixpoint for_each {A} (l : list A) (body : A -> M unit) : M unit :=
  match l with
  | [] => ret tt
  | x :: rest => bind (body x) (fun _ => for_each rest body)
  end.

Section Methods.
Context {P : Parsers}.
Local Open Scope jmuxer_scope.

Definition feed_error : string :=
  "Input object must have video and/or audio property. Make sure it is a valid typed array".

(** [feed(data)]; [None] is a call without an object ([!data]). *)
Definition feed (data : option Data) : M unit :=
  match data with
  | None => ret tt
  | Some data =>
      alive <- get remuxController ;;
      if negb alive then ret tt else
      let duration :=
        match data_duration data with
        | Some d => if truthy d then d else 0
        | None => 0
        end in
      v <- (match video data with
            | Some bs =>
                let slices := extractNALu bs in
                if (0 <? List.length slices)%nat
                then fun this =>
                       let '(frames, this) := getVideoFrames this slices duration in
                       Ok (true, frames) this
                else ret (false, [])
            | None => ret (false, [])
            end) ;;
      a <- (match audio data with
            | Some bs =>
                let slices := extractAAC bs in
                if (0 <? List.length slices)%nat
                then this <- get (fun this => this) ;;
                     ret (true, getAudioFrames this slices duration)
                else ret (fst v, [])
            | None => ret (fst v, [])
            end) ;;
      let remux := fst a in
      if negb remux
      then update (call (debug_error feed_error))
      else update (call (rc_remux (snd v) (snd a)))
  end.

(** [releaseBuffer()] *)
Definition releaseBuffer : M unit :=
  bcs <- get bufferControllers ;;
  match bcs with
  | Some keys => for_each keys (fun type => update (call (bc_doAppend type)))
  | None => ret tt
  end.

(** [onBuffer(data)] with [data = {type, payload}].  The test
    [this.bufferControllers[data.type]] is a lookup on a plain object: a
    type that is no track but names a member of [Object.prototype] finds
    that member, which is truthy and has no [feed], so that the call throws
    before [releaseBuffer()] is reached. *)
Definition onBuffer (type : string) (p : bytes) : M unit :=
  bcs <- get bufferControllers ;;
  match bcs with
  | Some keys =>
      if has_key type keys then update (call (bc_feed type p))
      else if has_key type Object_prototype then throw "TypeError"
      else ret tt
  | None => ret tt
  end ;;
  releaseBuffer.

(** [onBufferError(data)] with [data = {type, name}].  The events come from
    the buffer controllers, so that [type] is looked up among the tracks
    themselves; what [endOfStream()] does, and the error logged should it
    throw, belong to the media source. *)
Definition onBufferError (type name : string) : M unit :=
  if (name =? "QuotaExceeded")%string then
    bcs <- get bufferControllers ;;
    t <- get currentTime ;;
    match bcs with
    | Some keys =>
        if has_key type keys
        then update (call (bc_initCleanup type t))
        else throw "TypeError"
    | None => throw "TypeError"
    end
  else
    attached <- get ms_sourceBuffers ;;
    own <- get sourceBuffers ;;
    when ((0 <? List.length attached)%nat && has_key type own)
         (update (call (ms_removeSourceBuffer type)) ;;
          update (set_ms_sourceBuffers (remove string_dec type attached))) ;;
    attached <- get ms_sourceBuffers ;;
    when (List.length attached =? 0)%nat
         (update (call ms_endOfStream)).

(** What reaches the muxer from outside, one event at a time: the
    remuxer's [buffer] event, a buffer controller's [error] event, the
    playback position moving, and a caller's [feed]. *)
Inductive Event :=
| ev_buffer (type : string) (p : bytes)
| ev_error (type name : string)
| ev_time (t : Q)
| ev_feed (data : option Data).

Definition dispatch (e : Event) : M unit :=
  match e with
  | ev_buffer type p => onBuffer type p
  | ev_error type name => onBufferError type name
  | ev_time t => update (set_currentTime t)
  | ev_feed data => feed data
  end.

(** The handlers run one after the other, each to its end; a throw inside
    a handler ends that handler only. *)
Fixpoint run (es : list Event) (this : JMuxmer) : JMuxmer :=
  match es with
  | [] => this
  | e :: rest =>
      match dispatch e this with
      | Ok _ this' => run rest this'
      | Throw _ this' => run rest this'
      end
  end.

End Methods.

(** ** A concrete unit class *)

Definition byteZ (b : byte) : Z := Z.of_N (Byte.to_N b).

(** Modelled from the spec: the class [NALU] of [util/nalu.js] is not among
    the sources.  The type of a unit is read from the low five bits of its
    header byte; [isVCL] is true for the slice types (1, non-IDR, and 5,
    IDR); a unit is a keyframe when it is an IDR slice. *)
Definition spec_new_NALU (nalu : bytes) : NALU :=
  let t := Z.land (byteZ (hd x00 nalu)) 31 in
  mkNALU nalu t ((t =? 1) || (t =? 5)) false (t =? 5).

(** Modelled from the spec: [H264Parser.parseHeader] of [parsers/h264.js] is
    not among the sources.  It sets [isfmb] from the slice header's
    first-macroblock-in-slice field, an Exp-Golomb code that is zero exactly
    when the first bit after the header byte is set. *)
Definition spec_parseHeader (u : NALU) : NALU :=
  mkNALU (payload u) (ntype u) (isvcl u)
         (Z.testbit (byteZ (nth 1 (payload u) x00)) 7) (isKeyframe u).

(** The two scanners stay parameters. *)
Definition spec_parsers (scanV scanA : bytes -> list bytes) : Parsers :=
  {| extractNALu := scanV; extractAAC := scanA;
     new_NALU := spec_new_NALU; parseHeader := spec_parseHeader;
     NALU_IDR := 5; NALU_NDR := 1 |}.

(** Modelled from the spec: the scanners of [parsers/h264.js] and
    [parsers/aac.js] are not among the sources.  These two cover the
    buffers of the examples only: a video buffer that holds one unit behind
    one start code (three or four bytes) and no further start code, an
    audio buffer that is exactly one complete ADTS frame.  Any other buffer
    yields nothing. *)
Definition one_unit (b : bytes) : list bytes :=
  match b with
  | x00 :: x00 :: x01 :: u :: rest => [u :: rest]
  | x00 :: x00 :: x00 :: x01 :: u :: rest => [u :: rest]
  | _ => []
  end.

(** Modelled from the spec: the length of an ADTS frame, header included,
    is the 13-bit field that ends in the high three bits of the sixth
    header byte. *)
Definition adts_frame_length (b3 b4 b5 : byte) : Z :=
  Z.lor (Z.shiftl (Z.land (byteZ b3) 3) 11)
        (Z.lor (Z.shiftl (byteZ b4) 3) (Z.shiftr (byteZ b5) 5)).

(** Modelled from the spec: a frame starts with the sync word (twelve set
    bits) and a seven-byte header; a buffer that ends before the frame does
    (a partial header, or fewer bytes than the header announces) is
    discarded.  The access unit is the frame without its header. *)
Definition one_adts (b : bytes) : list bytes :=
  match b with
  | xff :: h :: _ :: b3 :: b4 :: b5 :: _ :: au =>
      if (Z.land (byteZ h) 240 =? 240)
         && (adts_frame_length b3 b4 b5 =? Z.of_nat (List.length b))
      then [au] else []
  | _ => []
  end.

Definition h264 : Parsers := spec_parsers one_unit one_adts.

(** Three units: an IDR slice and a non-IDR slice that both start a
    picture, and a SEI message. *)
Definition idr_slice : bytes := [x65; x88; x84].
Definition ndr_slice : bytes := [x41; x9a; x02].
Definition sei_unit : bytes := [x06; x05; x01].

(** * The rest of the class: construction, cleaning timer, buffers, teardown *)

Definition set_remuxController (b : bool) (this : JMuxmer) : JMuxmer :=
  mkJMuxmer (options this) (frameDuration this) (kfPosition this) (kfCounter this)
            b (currentTime this) (bufferControllers this)
            (sourceBuffers this) (ms_sourceBuffers this) (calls this).

Definition set_bufferControllers (k : option (list string)) (this : JMuxmer) : JMuxmer :=
  mkJMuxmer (options this) (frameDuration this) (kfPosition this) (kfCounter this)
            (remuxController this) (currentTime this) k
            (sourceBuffers this) (ms_sourceBuffers this) (calls this).

Definition set_sourceBuffers (k : list string) (this : JMuxmer) : JMuxmer :=
  mkJMuxmer (options this) (frameDuration this) (kfPosition this) (kfCounter this)
            (remuxController this) (currentTime this) (bufferControllers this)
            k (ms_sourceBuffers this) (calls this).

(** [obj[key] = value] on the keys of an object: a key already there keeps
    its place. *)
Definition add_key (key : string) (keys : list string) : list string :=
  if has_key key keys then keys else keys ++ [key].

(** ** The constructor *)

(** The options a caller passes; an absent key is [None]. *)
Record UserOptions := mkUserOptions {
  u_mode : option string;
  u_clearBuffer : option bool;
  u_fps : option Z;
  u_onReady : bool
}.

(** [if (!this.options.fps) this.options.fps = 30;
     this.frameDuration = (1000 / this.options.fps) | 0],
    for a frame rate that is an integer. *)
Definition frameDuration_of (fps : option Z) : Z :=
  let fps := match fps with
             | Some f => if truthy f then f else 30
             | None => 30
             end in
  div_or0 1000 fps.

(** Calls of the life-cycle methods on their collaborators (timer, media
    source, remux controller, buffer controllers, logger, the caller's
    [onReady]), recorded in the order they are made. *)
Inductive LCall :=
| lc_clearInterval
| lc_endOfStream
| lc_error (msg : string)
| lc_rc_destroy
| lc_bc_destroy (type : string)
| lc_addSourceBuffer (mime : string)
| lc_new_BufferController (type : string)
| lc_onReady.

(** The muxer together with the fields that only the life-cycle methods
    use. *)
Record Player := mkPlayer {
  muxer : JMuxmer;
  lastCleaningTime : Z;
  mseReady : bool;
  mediaSource : bool;      (* false once destroy() has set it to null *)
  interval : bool;         (* this.interval holds a timer *)
  onReady : bool;          (* this.options.onReady is a function *)
  lifecycle : list LCall
}.

Definition with_muxer (mx : JMuxmer) (p : Player) : Player :=
  mkPlayer mx (lastCleaningTime p) (mseReady p) (mediaSource p) (interval p)
           (onReady p) (lifecycle p).

Definition set_lastCleaningTime (t : Z) (p : Player) : Player :=
  mkPlayer (muxer p) t (mseReady p) (mediaSource p) (interval p)
           (onReady p) (lifecycle p).

Definition set_mseReady (b : bool) (p : Player) : Player :=
  mkPlayer (muxer p) (lastCleaningTime p) b (mediaSource p) (interval p)
           (onReady p) (lifecycle p).

Definition set_mediaSource (b : bool) (p : Player) : Player :=
  mkPlayer (muxer p) (lastCleaningTime p) (mseReady p) b (interval p)
           (onReady p) (lifecycle p).

Definition set_onReady (b : bool) (p : Player) : Player :=
  mkPlayer (muxer p) (lastCleaningTime p) (mseReady p) (mediaSource p) (interval p)
           b (lifecycle p).

Definition lcall (c : LCall) (p : Player) : Player :=
  mkPlayer (muxer p) (lastCleaningTime p) (mseReady p) (mediaSource p) (interval p)
           (onReady p) (lifecycle p ++ [c]).

(** The fields that [constructor(options)] sets, [now] being what
    [Date.now()] returns; the defaults are [mode: 'both'],
    [clearBuffer: true], [fps: 30]. *)
Definition constructor (u : UserOptions) (now : Z) : Player :=
  let mode_ := match u_mode u with Some m => m | None => "both"%string end in
  let clear := match u_clearBuffer u with Some c => c | None => true end in
  mkPlayer (new_JMuxmer (mkOptions mode_ clear) (frameDuration_of (u_fps u)))
           now false true true (u_onReady u) [].

(** ** The cleaning timer *)

(** One turn of the loop of [clearBuffer()]. *)
Definition clean_track (this : JMuxmer) (type : string) : JMuxmer :=
  let '(cleanMaxLimit, this) := getSafeClearOffsetOfBuffer this (currentTime this) in
  call (bc_initCleanup type cleanMaxLimit) this.

Definition controller_keys (this : JMuxmer) : list string :=
  match bufferControllers this with
  | Some keys => keys
  | None => []
  end.

(** [clearBuffer()]; [now] and [now'] are what the two calls of
    [Date.now()] return. *)
Definition clearBuffer (now now' : Z) (p : Player) : Player :=
  if opt_clearBuffer (options (muxer p)) && (10000 <? now - lastCleaningTime p)
  then set_lastCleaningTime now'
         (with_muxer (fold_left clean_track (controller_keys (muxer p)) (muxer p)) p)
  else p.

(** The callback that [startInterval()] installs. *)
Definition onInterval (now now' : Z) (p : Player) : Player :=
  match bufferControllers (muxer p) with
  | Some _ => clearBuffer now now' p
  | None => p
  end.

(** ** The source buffers *)

Definition quote : string := String "034"%char EmptyString.

(** [`${type}/mp4; codecs="${track.mp4track.codec}"`] *)
Definition mime_of (type codec : string) : string :=
  (type ++ "/mp4; codecs=" ++ quote ++ codec ++ quote)%string.

(** The loop of [createBuffer()] over [this.remuxController.tracks], a
    track being its type and its codec; [supported] is
    [JMuxmer.isSupported].  The loop ends at the first codec that is not
    supported. *)
Fixpoint create_tracks (supported : string -> bool) (tracks : list (string * string))
         (p : Player) : Player :=
  match tracks with
  | [] => p
  | (type, codec) :: rest =>
      if negb (supported (mime_of type codec))
      then lcall (lc_error "Browser does not support codec") p
      else
        let p := lcall (lc_addSourceBuffer (mime_of type codec)) p in
        let p := lcall (lc_new_BufferController type) p in
        let mx := muxer p in
        let mx := set_ms_sourceBuffers (ms_sourceBuffers mx ++ [type]) mx in
        let mx := set_bufferControllers (Some (add_key type (controller_keys mx))) mx in
        let mx := set_sourceBuffers (add_key type (sourceBuffers mx)) mx in
        create_tracks supported rest (with_muxer mx p)
  end.

(** [createBuffer()]; [ready] is [this.remuxController.isReady()] and
    [tracks] is [this.remuxController.tracks] at the time of the call. *)
Definition createBuffer (supported : string -> bool) (ready : bool)
           (tracks : list (string * string)) (p : Player) : Player :=
  if negb (mseReady p) || negb (remuxController (muxer p)) || negb ready
     || (match bufferControllers (muxer p) with Some _ => true | None => false end)
  then p
  else create_tracks supported tracks
         (with_muxer (set_bufferControllers (Some []) (muxer p)) p).

(** [onMSEOpen()]; [throws] tells whether the caller's [onReady] callback
    throws at this call.  The callback is removed only after it has
    returned: when it throws, the exception leaves the method with the
    callback still installed and [createBuffer()] not reached. *)
Definition onMSEOpen (supported : string -> bool) (throws ready : bool)
           (tracks : list (string * string)) (p : Player) : Player :=
  let p := set_mseReady true p in
  if onReady p then
    let p := lcall lc_onReady p in
    if throws then p
    else createBuffer supported ready tracks (set_onReady false p)
  else createBuffer supported ready tracks p.

(** [onMSEClose()] *)
Definition onMSEClose (p : Player) : Player := set_mseReady false p.

(** ** Teardown *)

(** [destroy()]; [eos] tells whether [mediaSource.endOfStream()] throws, and
    with which message. *)
Definition destroy (eos : option string) (p : Player) : Player :=
  (* stopInterval() *)
  let p := if interval p then lcall lc_clearInterval p else p in
  let p :=
    if mediaSource p then
      let p :=
        match bufferControllers (muxer p) with
        | Some _ =>
            let p := lcall lc_endOfStream p in
            match eos with
            | Some message =>
                lcall (lc_error ("mediasource is not available to end " ++ message)) p
            | None => p
            end
        | None => p
        end in
      set_mediaSource false p
    else p in
  let p :=
    if remuxController (muxer p)
    then with_muxer (set_remuxController false (muxer p)) (lcall lc_rc_destroy p)
    else p in
  let p :=
    match bufferControllers (muxer p) with
    | Some keys =>
        with_muxer (set_bufferControllers None (muxer p))
                   (fold_left (fun p type => lcall (lc_bc_destroy type) p) keys p)
    | None => p
    end in
  set_mseReady false p.

(** ** Reading a chunk *)

(** [data.duration ? parseInt(data.duration) : 0] *)
Definition chunk_duration (data : Data) : Z :=
  match data_duration data with
  | Some d => if truthy d then d else 0
  | None => 0
  end.

(** The units that the scanners find in the two fields of a chunk; none
    for a field that is absent. *)
Definition video_slices {P : Parsers} (data : Data) : list bytes :=
  match video data with Some bs => extractNALu bs | None => [] end.

Definition audio_slices {P : Parsers} (data : Data) : list bytes :=
  match audio data with Some bs => extractAAC bs | None => [] end.

(** ** Sequences of timer ticks and of life-cycle events *)

(** Whether the timer callback at the clock reading [now] runs a cleaning
    pass. *)
Definition cleans (now : Z) (p : Player) : bool :=
  match bufferControllers (muxer p) with
  | Some _ => opt_clearBuffer (options (muxer p)) && (10000 <? now - lastCleaningTime p)
  | None => false
  end.

(** A sequence of timer ticks, each with its two clock readings; the
    result holds the first reading of every tick that ran a cleaning pass. *)
Fixpoint ticks (ts : list (Z * Z)) (p : Player) : Player * list Z :=
  match ts with
  | [] => (p, [])
  | (now, now') :: rest =>
      let '(p', passes) := ticks rest (onInterval now now' p) in
      (p', if cleans now p then now :: passes else passes)
  end.

(** What reaches a player: the media source opening (with whether the
    [onReady] callback throws, should it be called) or closing, the
    remuxer becoming ready (which calls [createBuffer]), a timer tick, a
    call of [destroy], and the events of the muxer itself. *)
Inductive LEvent :=
| le_open (throws ready : bool) (tracks : list (string * string))
| le_close
| le_ready (ready : bool) (tracks : list (string * string))
| le_tick (now now' : Z)
| le_destroy (eos : option string)
| le_muxer (e : Event).

(** An event of the muxer, on a player.  The handler of an error other
    than [QuotaExceeded] reads [this.mediaSource.sourceBuffers]: on a player
    whose media source is gone it throws before it has done anything. *)
Definition muxer_event {P : Parsers} (e : Event) (p : Player) : Player :=
  match e with
  | ev_error _ name =>
      if negb (name =? "QuotaExceeded")%string && negb (mediaSource p)
      then p
      else with_muxer (run [e] (muxer p)) p
  | _ => with_muxer (run [e] (muxer p)) p
  end.

Definition ldispatch {P : Parsers} (supported : string -> bool) (e : LEvent)
           (p : Player) : Player :=
  match e with
  | le_open throws ready tracks => onMSEOpen supported throws ready tracks p
  | le_close => onMSEClose p
  | le_ready ready tracks => createBuffer supported ready tracks p
  | le_tick now now' => onInterval now now' p
  | le_destroy eos => destroy eos p
  | le_muxer e => muxer_event e p
  end.

Definition lrun {P : Parsers} (supported : string -> bool) (es : list LEvent)
           (p : Player) : Player :=
  fold_left (fun p e => ldispatch supported e p) es p.

(** The tracks before the first one whose codec is not supported. *)
Fixpoint supported_prefix (supported : string -> bool) (tracks : list (string * string))
  : list (string * string) :=
  match tracks with
  | [] => []
  | (type, codec) :: rest =>
      if supported (mime_of type codec)
      then (type, codec) :: supported_prefix supported rest
      else []
  end.

Definition all_supported (supported : string -> bool) (tracks : list (string * string))
  : bool :=
  forallb (fun tc => supported (mime_of (fst tc) (snd tc))) tracks.

(** The calls that create the buffer of one track. *)
Definition buffer_calls (tc : string * string) : list LCall :=
  [lc_addSourceBuffer (mime_of (fst tc) (snd tc)); lc_new_BufferController (fst tc)].

Definition is_onReady (c : LCall) : bool :=
  match c with lc_onReady => true | _ => false end.

(** The calls that [destroy()] makes, in order. *)
Definition destroy_calls (eos : option string) (p : Player) : list LCall :=
  (if interval p then [lc_clearInterval] else [])
  ++ (if mediaSource p
      then match bufferControllers (muxer p) with
           | Some _ =>
               lc_endOfStream
               :: match eos with
                  | Some message =>
                      [lc_error ("mediasource is not available to end " ++ message)]
                  | None => []
                  end
           | None => []
           end
      else [])
  ++ (if remuxController (muxer p) then [lc_rc_destroy] else [])
  ++ map lc_bc_destroy (controller_keys (muxer p)).

(** How many times [onReady] has been called. *)
Definition ready_count (p : Player) : nat :=
  List.length (filter is_onReady (lifecycle p)).

(** The openings of the media source, among the events, at which the
    [onReady] callback throws if it is called. *)
Definition throwing_open (e : LEvent) : bool :=
  match e with le_open throws _ _ => throws | _ => false end.

Definition throwing_opens (es : list LEvent) : nat :=
  List.length (filter throwing_open es).

(** A player after [destroy()]. *)
Definition destroyed (p : Player) : Prop :=
  remuxController (muxer p) = false
  /\ bufferControllers (muxer p) = None
  /\ mediaSource p = false.

(** * Vocabulary of the properties *)

(** ** Frames, durations, operations *)

(** A frame closed by the loop: it holds a VCL unit, its flag is the
    disjunction of [isKeyframe] over its units, it has no duration yet. *)
Definition closed_frame (f : Frame) : Prop :=
  existsb isvcl (units f) = true
  /\ keyFrame f = existsb isKeyframe (units f)
  /\ duration f = None.

Record loop_inv {P : Parsers} (nalus : list bytes) (st : Loop) : Prop := {
  inv_vcl : l_vcl st = existsb isvcl (l_units st);
  inv_key : l_keyFrame st = existsb isKeyframe (l_units st);
  inv_frames : Forall closed_frame (l_frames st);
  inv_units : List.concat (map units (l_frames st)) ++ l_units st = map load nalus;
  inv_pending : nalus <> [] -> l_units st <> []
}.

(** The flag of every assembled frame, given that a keyframe unit is a
    VCL unit. *)
Definition keyframes_are_vcl {P : Parsers} (nalus : list bytes) : Prop :=
  Forall (fun nalu => isKeyframe (load nalu) = true -> isvcl (load nalu) = true) nalus.

Definition flag_is_or (f : Frame) : Prop :=
  keyFrame f = existsb isKeyframe (units f).

(** The chunk end as the specification words it: the pending units become a
    frame of their own when no frame closed so far holds VCL content, and
    join the last closed frame otherwise. *)
Definition chunk_end_as_specified {P : Parsers} (nalus : list bytes) : Prop :=
  let st := loop nalus in
  l_units st <> [] ->
  assemble nalus
  = if existsb (fun f => existsb isvcl (units f)) (l_frames st)
    then concat_last (l_frames st) (l_units st)
    else l_frames st ++ [mkFrame (l_units st) (l_keyFrame st) None].

(** The durations that [frames.map] hands out, in order, to [n] frames:
    [fd + 1] while [tt] is positive, [fd] afterwards. *)
Fixpoint spread (fd tt_ : Z) (n : nat) : list Z :=
  match n with
  | O => []
  | S n => if 0 <? tt_ then (fd + 1) :: spread fd (tt_ - 1) n
           else fd :: spread fd tt_ n
  end.

(** The sum of the durations of a list of frames; [None] if one of them has
    no duration. *)
Fixpoint total (ds : list (option Z)) : option Z :=
  match ds with
  | [] => Some 0
  | d :: rest =>
      match d, total rest with
      | Some x, Some y => Some (x + y)
      | _, _ => None
      end
  end.

Definition zsum (l : list Z) : Z := fold_right Z.add 0 l.

(** What [this] becomes along [frames.map]: the counter and the ledger. *)
Definition count_frame (fd : Z) (this : JMuxmer) (frame : Frame) : JMuxmer :=
  set_kf this (kfCounter this + 1)
         (if keyFrame frame && opt_clearBuffer (options this)
          then kfPosition this ++ [Qmake ((kfCounter this + 1) * fd) 1000]
          else kfPosition this).

(** The two writers of the ledger, as operations on the muxer: a video
    chunk going through [getVideoFrames], and a cleaning pass calling
    [getSafeClearOffsetOfBuffer]. *)
Inductive Op :=
| op_video (nalus : list bytes) (duration_ : Z)
| op_clear (offset : Q).

Definition apply_op {P : Parsers} (this : JMuxmer) (op : Op) : JMuxmer :=
  match op with
  | op_video nalus duration_ => snd (getVideoFrames this nalus duration_)
  | op_clear offset => snd (getSafeClearOffsetOfBuffer this offset)
  end.

(** The per-frame duration [fd] that a video chunk gets in a muxer whose
    [frameDuration] is [frameDuration_]. *)
Definition chunk_fd {P : Parsers} (frameDuration_ : Z) (op : Op) : option Z :=
  match op with
  | op_video nalus duration_ =>
      Some (base_duration (new_JMuxmer (mkOptions "" false) frameDuration_)
                          duration_ (List.length (assemble nalus)))
  | op_clear _ => None
  end.

Definition same_fd {P : Parsers} (frameDuration_ fd : Z) (op : Op) : Prop :=
  match chunk_fd frameDuration_ op with
  | Some fd' => fd' = fd
  | None => True
  end.

Definition ascending (ledger : list Q) : Prop := StronglySorted Qlt ledger.

Definition state_of {A} (r : Res A) : JMuxmer :=
  match r with Ok _ this => this | Throw _ this => this end.

(** A chunk whose fields, where present, yield no unit. *)
Definition no_units {P : Parsers} (data : Data) : Prop :=
  (forall bs, video data = Some bs -> extractNALu bs = [])
  /\ (forall bs, audio data = Some bs -> extractAAC bs = []).

(** An invalid input of [feed]: no data at all, or a chunk without units. *)
Definition invalid_input {P : Parsers} (data : option Data) : Prop :=
  match data with
  | None => True
  | Some data => no_units data
  end.

(** The rejection as the specification words it: the call returns, and
    leaves the muxer as it was but for one logged error. *)
Definition rejected_with_log (this : JMuxmer) (r : Res unit) : Prop :=
  r = Ok tt (call (debug_error feed_error) this).

(** A segment type that is no track of the muxer but that the lookup in
    the table of controllers finds all the same, as an inherited member. *)
Definition inherited_key (type : string) (this : JMuxmer) : bool :=
  match bufferControllers this with
  | Some keys => negb (has_key type keys) && has_key type Object_prototype
  | None => false
  end.

Definition is_remux (c : Call) : bool :=
  match c with rc_remux _ _ => true | _ => false end.






(** Along a sequence of operations, the per-frame duration of every video
    chunk is positive and at least that of the video chunk before it, the
    first being at least [lo]. *)
Fixpoint growing_fd {P : Parsers} (frameDuration_ lo : Z) (ops : list Op) : Prop :=
  match ops with
  | [] => True
  | op :: rest =>
      match chunk_fd frameDuration_ op with
      | Some fd => lo <= fd /\ 0 < fd /\ growing_fd frameDuration_ fd rest
      | None => growing_fd frameDuration_ lo rest
      end
  end.

(** ** The ledger *)

Section LedgerVocabulary.
Local Open Scope Q_scope.

(** In a strictly ascending ledger, the entry written just before [k] is
    the greatest entry below [k]. *)
Definition entry_before (ledger : list Q) (k k' : Q) : Prop :=
  In k' ledger /\ k' < k /\ forall e, In e ledger -> e < k -> e <= k'.

Definition greatest_at_most (ledger : list Q) (p k : Q) : Prop :=
  In k ledger /\ k <= p /\ forall e, In e ledger -> e <= p -> e <= k.

(** What holds of the counter and the ledger as long as every video chunk
    has the same positive per-frame duration [fd]: the ledger is strictly
    ascending, and its entries are positive and at most [kfCounter * fd /
    1000]. *)
Record ledger_inv (fd : Z) (this : JMuxmer) : Prop := {
  li_counter : (0 <= kfCounter this)%Z;
  li_sorted : ascending (kfPosition this);
  li_bound : Forall (fun e => 0 < e /\ e <= Qmake (kfCounter this * fd) 1000)
                    (kfPosition this)
}.

End LedgerVocabulary.

(** ** Muxers and chunks for the examples *)

Definition both_30fps : JMuxmer := new_JMuxmer (mkOptions "both" true) 33.

(** A complete ADTS frame of eight bytes: the seven-byte header, which
    announces eight bytes, and one byte of payload. *)
Definition adts_frame : bytes := [xff; xf1; x50; x80; x01; x1f; xfc; x21].

Definition idr_chunk (d : option Z) : Data :=
  mkData (Some [x00; x00; x01; x65; x88; x84]) None d.

(** A muxer in audio mode that was fed two video chunks. *)
Definition audio_fed_video : JMuxmer :=
  run (P := h264) [ev_feed (Some (idr_chunk None)); ev_feed (Some (idr_chunk None))]
      (new_JMuxmer (mkOptions "audio" true) 33).

(** A muxer that was fed four keyframes of 33 ms each. *)
Definition four_keyframes : JMuxmer :=
  run (P := h264)
      [ev_feed (Some (idr_chunk None)); ev_feed (Some (idr_chunk None));
       ev_feed (Some (idr_chunk None)); ev_feed (Some (idr_chunk None))]
      both_30fps.


(** A muxer that was fed four keyframes, one per chunk, lasting 34, 34, 34
    and 25 ms. *)
Definition jittering_durations : JMuxmer :=
  run (P := h264)
      [ev_feed (Some (idr_chunk (Some 34))); ev_feed (Some (idr_chunk (Some 34)));
       ev_feed (Some (idr_chunk (Some 34))); ev_feed (Some (idr_chunk (Some 25)))]
      both_30fps.


(** Video chunks whose per-frame durations are 33, 34 and 40 ms, with a
    cleaning pass in between. *)
Definition growing_durations : list Op :=
  [op_video [idr_slice] 33; op_video [idr_slice] 34;
   op_clear (Qmake 1 20); op_video [idr_slice] 40].

Definition three_operations : list Op :=
  [op_video [idr_slice; ndr_slice; idr_slice] 0;
   op_clear (Qmake 1 20);
   op_video [idr_slice] 0].

(** A video buffer without a start code: the scanner finds no unit. *)
Definition no_start_code : Data := mkData (Some [x01; x02]) None (Some 40).

(** A muxer whose two source buffers are attached, playing at 12 s. *)
Definition playing : JMuxmer :=
  mkJMuxmer (mkOptions "both" true) 33 [] 0 true 12
            (Some ["video"; "audio"]%string) ["video"; "audio"]%string
            ["video"; "audio"]%string [].

(** The number of video frames handed to the remuxer so far. *)
Fixpoint remuxed_frames (cs : list Call) : Z :=
  match cs with
  | [] => 0
  | rc_remux v _ :: rest => Z.of_nat (List.length v) + remuxed_frames rest
  | _ :: rest => remuxed_frames rest
  end.

(** ** Players and tracks for the examples *)

Definition av_tracks : list (string * string) :=
  [("video", "avc1.42E01E"); ("audio", "mp4a.40.2")]%string.

(** A browser that supports the video codec only. *)
Definition video_only (mime : string) : bool :=
  String.prefix "video" mime.

(** A new player with the default options and an [onReady] callback, then
    the same once the media source has opened. *)
Definition fresh : Player :=
  constructor (mkUserOptions None None None true) 0.

Definition opened : Player := set_mseReady true fresh.

(** A player with both buffers, four keyframes in the ledger, playing at
    0.1 s, last cleaned at time 0. *)
Definition streaming : Player :=
  mkPlayer (set_currentTime (Qmake 1 10)
              (set_ms_sourceBuffers ["video"; "audio"]%string
                 (set_sourceBuffers ["video"; "audio"]%string
                    (set_bufferControllers (Some ["video"; "audio"]%string)
                       four_keyframes))))
           0 true true true false [].

Definition audio_chunk : Data := mkData None (Some adts_frame) None.

Definition three_ticks : list (Z * Z) :=
  [(20000, 20001); (25000, 25000); (31000, 31002)].

Definition late_events : list LEvent :=
  [le_open false true av_tracks; le_muxer (ev_feed (Some (idr_chunk None)));
   le_muxer (ev_error "video" "InvalidStateError"); le_tick 50000 50000].

(** The media source opens three times; the [onReady] callback throws at
    the first opening. *)
Definition throwing_callback : list LEvent :=
  [le_open true true av_tracks; le_close; le_open false true av_tracks;
   le_close; le_open false true av_tracks].

(** * Properties *)

(** ** The loop of the frame assembler *)

Section AssemblerFacts.
Context {P : Parsers}.

Lemma loop_snoc (nalus : list bytes) (nalu : bytes) :
  loop (nalus ++ [nalu]) = loop_body (loop nalus) nalu.
Proof. unfold loop. now rewrite fold_left_app. Qed.

Lemma existsb_nil_length {A} (f : A -> bool) (l : list A) :
  existsb f l = true -> (List.length l =? 0)%nat = false.
Proof. destruct l; simpl; [discriminate | reflexivity]. Qed.

(** Under the invariant the test of the loop reads as the specification
    words it: some accumulated unit is VCL, and the next unit starts a
    picture or is not VCL. *)
Lemma closes_spec nalus st unit :
  loop_inv nalus st ->
  closes st unit = existsb isvcl (l_units st) && (isfmb unit || negb (isvcl unit)).
Proof.
  intros I. unfold closes. rewrite (inv_vcl _ _ I).
  destruct (existsb isvcl (l_units st)) eqn:E.
  - now rewrite (existsb_nil_length _ _ E).
  - now rewrite andb_false_r.
Qed.

Lemma loop_inv_init : loop_inv [] loop_init.
Proof. split; simpl; auto; congruence. Qed.

Lemma loop_inv_body nalus st nalu :
  loop_inv nalus st -> loop_inv (nalus ++ [nalu]) (loop_body st nalu).
Proof.
  intros I. unfold loop_body.
  destruct (closes st (load nalu)) eqn:C.
  - rewrite (closes_spec _ _ _ I) in C. apply andb_true_iff in C as [V _].
    split; simpl.
    + now rewrite orb_false_r.
    + now rewrite orb_false_r.
    + apply Forall_app; split; [exact (inv_frames _ _ I)|].
      constructor; [|constructor].
      repeat split; simpl; [exact V | exact (inv_key _ _ I)].
    + rewrite map_app, concat_app, map_app. simpl.
      rewrite app_nil_r, <- (inv_units _ _ I). now rewrite <- app_assoc.
    + intros _. discriminate.
  - split; simpl.
    + rewrite existsb_app, (inv_vcl _ _ I). simpl. now rewrite orb_false_r.
    + rewrite existsb_app, (inv_key _ _ I). simpl. now rewrite orb_false_r.
    + exact (inv_frames _ _ I).
    + rewrite map_app, app_assoc, (inv_units _ _ I). reflexivity.
    + intros _ E. now apply app_eq_nil in E as [_ E].
Qed.

Lemma loop_invariant (nalus : list bytes) : loop_inv nalus (loop nalus).
Proof.
  induction nalus as [|nalu nalus IH] using rev_ind.
  - exact loop_inv_init.
  - rewrite loop_snoc. now apply loop_inv_body.
Qed.

(** ** The end of the chunk *)

Lemma concat_last_snoc (frames : list Frame) (f : Frame) (us : list NALU) :
  concat_last (frames ++ [f]) us
  = frames ++ [mkFrame (units f ++ us) (keyFrame f) (duration f)].
Proof. unfold concat_last. rewrite rev_app_distr. simpl. now rewrite rev_involutive. Qed.

Lemma nonempty_snoc {A} (l : list A) :
  (List.length l =? 0)%nat = false -> exists l' x, l = l' ++ [x].
Proof.
  destruct l as [|a l] using rev_ind; [discriminate|].
  intros _. now exists l, a.
Qed.

Lemma concat_units_concat_last (frames : list Frame) (us : list NALU) :
  (List.length frames =? 0)%nat = false ->
  List.concat (map units (concat_last frames us)) = List.concat (map units frames) ++ us.
Proof.
  intros N. destruct (nonempty_snoc _ N) as (fs & f & ->).
  rewrite concat_last_snoc, !map_app, !concat_app. simpl.
  now rewrite !app_nil_r, app_assoc.
Qed.

(** No unit is lost and none changes place: the units of the frames,
    read in order, are the units of the chunk. *)
Lemma assemble_units (nalus : list bytes) :
  List.concat (map units (assemble nalus)) = map load nalus.
Proof.
  pose proof (loop_invariant nalus) as I.
  unfold assemble, loop_end.
  destruct (List.length (l_units (loop nalus)) =? 0)%nat eqn:U; simpl.
  - rewrite <- (inv_units _ _ I).
    destruct (l_units (loop nalus)); [now rewrite app_nil_r | discriminate].
  - destruct (l_vcl (loop nalus)); simpl.
    + rewrite map_app, concat_app. simpl. rewrite app_nil_r.
      exact (inv_units _ _ I).
    + destruct (List.length (l_frames (loop nalus)) =? 0)%nat eqn:F.
      * rewrite map_app, concat_app. simpl. rewrite app_nil_r.
        exact (inv_units _ _ I).
      * rewrite (concat_units_concat_last _ _ F). exact (inv_units _ _ I).
Qed.

Lemma assemble_nonempty (nalus : list bytes) :
  nalus <> [] -> assemble nalus <> [].
Proof.
  intros N E. pose proof (assemble_units nalus) as U.
  rewrite E in U. simpl in U. destruct nalus; [congruence | discriminate].
Qed.

Lemma no_vcl_no_keyframe (us : list NALU) :
  Forall (fun u => isKeyframe u = true -> isvcl u = true) us ->
  existsb isvcl us = false -> existsb isKeyframe us = false.
Proof.
  induction 1 as [|u us H _ IH]; simpl; [reflexivity|].
  intros E. apply orb_false_iff in E as [E1 E2].
  rewrite (IH E2), orb_false_r.
  destruct (isKeyframe u); [|reflexivity]. rewrite H in E1; congruence.
Qed.

Lemma pending_units_wf (nalus : list bytes) :
  keyframes_are_vcl nalus ->
  Forall (fun u => isKeyframe u = true -> isvcl u = true) (l_units (loop nalus)).
Proof.
  intros W. pose proof (inv_units _ _ (loop_invariant nalus)) as U.
  assert (A : Forall (fun u => isKeyframe u = true -> isvcl u = true) (map load nalus)).
  { unfold keyframes_are_vcl in W. rewrite Forall_map. exact W. }
  rewrite <- U in A. now apply Forall_app in A as [_ A].
Qed.

Lemma assemble_flags (nalus : list bytes) :
  keyframes_are_vcl nalus -> Forall flag_is_or (assemble nalus).
Proof.
  intros W. pose proof (loop_invariant nalus) as I.
  assert (F : Forall flag_is_or (l_frames (loop nalus))).
  { eapply Forall_impl; [|exact (inv_frames _ _ I)]. intros f (_ & K & _). exact K. }
  unfold assemble, loop_end.
  destruct (List.length (l_units (loop nalus)) =? 0)%nat eqn:U; simpl; [exact F|].
  destruct (l_vcl (loop nalus)) eqn:V; simpl.
  - apply Forall_app; split; [exact F|]. constructor; [|constructor].
    exact (inv_key _ _ I).
  - destruct (List.length (l_frames (loop nalus)) =? 0)%nat eqn:L.
    + apply Forall_app; split; [exact F|]. constructor; [|constructor].
      exact (inv_key _ _ I).
    + destruct (nonempty_snoc _ L) as (fs & f & E). rewrite E in *.
      rewrite concat_last_snoc. apply Forall_app in F as [F1 F2].
      apply Forall_app; split; [exact F1|]. constructor; [|constructor].
      inversion F2 as [|? ? K _]; subst. unfold flag_is_or in *. simpl.
      rewrite existsb_app, <- K.
      rewrite (no_vcl_no_keyframe _ (pending_units_wf _ W)).
      * now rewrite orb_false_r.
      * now rewrite <- (inv_vcl _ _ I).
Qed.

End AssemblerFacts.

(** ** Durations *)

Section DurationFacts.
Context {P : Parsers}.

Lemma to_int32_small (z : Z) : - 2 ^ 31 <= z < 2 ^ 31 -> to_int32 z = z.
Proof.
  intros H. unfold to_int32. rewrite Z.mod_small; lia.
Qed.

Lemma total_Some (l : list Z) : total (map Some l) = Some (zsum l).
Proof. induction l as [|x l IH]; simpl; [reflexivity | now rewrite IH]. Qed.

Lemma zsum_app (l l' : list Z) : zsum (l ++ l') = zsum l + zsum l'.
Proof. induction l as [|x l IH]; simpl; [reflexivity | rewrite IH; lia]. Qed.

Lemma zsum_repeat (x : Z) (k : nat) : zsum (repeat x k) = x * Z.of_nat k.
Proof. induction k as [|k IH]; simpl zsum; [lia | rewrite IH; lia]. Qed.

Lemma spread_zero (fd tt_ : Z) (n : nat) :
  tt_ <= 0 -> spread fd tt_ n = repeat fd n.
Proof.
  intros H. induction n as [|n IH]; simpl; [reflexivity|].
  destruct (Z.ltb_spec 0 tt_); [lia | now rewrite IH].
Qed.

(** With a remainder between 0 and the number of frames, the first
    [tt] frames get one more than the others. *)
Lemma spread_shape (fd tt_ : Z) (n : nat) :
  0 <= tt_ <= Z.of_nat n ->
  spread fd tt_ n
  = repeat (fd + 1) (Z.to_nat tt_) ++ repeat fd (n - Z.to_nat tt_).
Proof.
  revert tt_. induction n as [|n IH]; intros tt_ H.
  - simpl. replace (Z.to_nat tt_) with O by lia. reflexivity.
  - simpl spread. destruct (Z.ltb_spec 0 tt_) as [Hp|Hz].
    + rewrite IH by lia.
      replace (Z.to_nat tt_) with (S (Z.to_nat (tt_ - 1))) by lia.
      reflexivity.
    + replace (Z.to_nat tt_) with O by lia. simpl.
      now rewrite spread_zero by lia.
Qed.

Lemma video_fold_out (fd : Z) (frames done : list Frame) (tt_ : Z) (this : JMuxmer) :
  let out := fst (fst (fold_left (video_frame fd) frames (done, tt_, this))) in
  map units out = map units done ++ map units frames
  /\ map keyFrame out = map keyFrame done ++ map keyFrame frames
  /\ map duration out
     = map duration done ++ map Some (spread fd tt_ (List.length frames)).
Proof.
  revert done tt_ this. induction frames as [|f frames IH]; intros done tt_ this.
  - simpl. now rewrite !app_nil_r.
  - simpl fold_left. simpl List.length. simpl spread.
    destruct (0 <? tt_) eqn:E; cbv zeta;
      match goal with
      | |- context [fold_left _ frames (?d, ?t, ?s)] =>
          pose proof (IH d t s) as H
      end;
      cbv zeta in H; destruct H as (U & K & D);
      rewrite U, K, D, !map_app; simpl; now rewrite <- !app_assoc.
Qed.

Lemma video_fold_state (fd : Z) (frames done : list Frame) (tt_ : Z) (this : JMuxmer) :
  snd (fold_left (video_frame fd) frames (done, tt_, this))
  = fold_left (count_frame fd) frames this.
Proof.
  revert done tt_ this. induction frames as [|f frames IH]; intros done tt_ this.
  - reflexivity.
  - simpl fold_left. destruct (0 <? tt_); apply IH.
Qed.

Lemma audio_fold_out (fd : Z) (frames done : list AudioFrame) (tt_ : Z) :
  map aduration (fst (fold_left (audio_frame fd) frames (done, tt_)))
  = map aduration done ++ map Some (spread fd tt_ (List.length frames)).
Proof.
  revert done tt_. induction frames as [|f frames IH]; intros done tt_.
  - simpl. now rewrite app_nil_r.
  - simpl fold_left. simpl List.length. simpl spread.
    destruct (0 <? tt_) eqn:E; cbv zeta; rewrite IH, map_app; simpl;
      now rewrite <- app_assoc.
Qed.

(** The frames, the durations and the state that [getVideoFrames]
    returns, in terms of the assembled frames. *)
Lemma getVideoFrames_out (this : JMuxmer) (nalus : list bytes) (duration_ : Z) :
  let frames := assemble nalus in
  let n := List.length frames in
  let fd := base_duration this duration_ n in
  let out := fst (getVideoFrames this nalus duration_) in
  map units out = map units frames
  /\ map keyFrame out = map keyFrame frames
  /\ map duration out = map Some (spread fd (remainder duration_ fd n) n).
Proof.
  cbn zeta. unfold getVideoFrames.
  pose proof (video_fold_out
                (base_duration this duration_ (List.length (assemble nalus)))
                (assemble nalus) []
                (remainder duration_
                   (base_duration this duration_ (List.length (assemble nalus)))
                   (List.length (assemble nalus)))
                this) as H.
  cbn zeta in H.
  destruct (fold_left _ _ _) as [[out t] this']. exact H.
Qed.

Lemma getVideoFrames_state (this : JMuxmer) (nalus : list bytes) (duration_ : Z) :
  let frames := assemble nalus in
  let fd := base_duration this duration_ (List.length frames) in
  snd (getVideoFrames this nalus duration_)
  = call (debug_log_frames (Z.of_nat (List.length (fst (getVideoFrames this nalus duration_)))))
         (fold_left (count_frame fd) frames this).
Proof.
  cbn zeta. unfold getVideoFrames.
  pose proof (video_fold_state
                (base_duration this duration_ (List.length (assemble nalus)))
                (assemble nalus) []
                (remainder duration_
                   (base_duration this duration_ (List.length (assemble nalus)))
                   (List.length (assemble nalus)))
                this) as H.
  destruct (fold_left _ _ _) as [[out t] this']. simpl in *. now rewrite H.
Qed.

Lemma getAudioFrames_out (this : JMuxmer) (aacFrames : list bytes) (duration_ : Z) :
  let n := List.length aacFrames in
  let fd := base_duration this duration_ n in
  map aduration (getAudioFrames this aacFrames duration_)
  = map Some (spread fd (remainder duration_ fd n) n).
Proof.
  cbn zeta. unfold getAudioFrames. rewrite audio_fold_out. simpl.
  now rewrite !length_map.
Qed.

(** Below 2^31 the quotient of [duration / frames.length | 0] is the
    integer quotient, and [tt] is the remainder of the division. *)
Lemma base_duration_div (this : JMuxmer) (D : Z) (n : nat) :
  0 < D -> (0 < n)%nat -> D / Z.of_nat n < 2 ^ 31 ->
  base_duration this D n = D / Z.of_nat n
  /\ remainder D (D / Z.of_nat n) n = D mod Z.of_nat n.
Proof.
  intros HD Hn Hb. unfold base_duration, remainder, truthy, div_or0.
  destruct (Z.eqb_spec D 0) as [|_]; [lia|]. simpl.
  rewrite Z.quot_div_nonneg by lia.
  assert (0 <= D / Z.of_nat n) by (apply Z.div_pos; lia).
  rewrite to_int32_small by lia. split; [reflexivity|].
  rewrite (Z.mod_eq D (Z.of_nat n)) by lia. lia.
Qed.

Lemma spread_div (D : Z) (n : nat) :
  0 < D -> (0 < n)%nat ->
  let q := D / Z.of_nat n in
  let r := Z.to_nat (D mod Z.of_nat n) in
  spread q (D mod Z.of_nat n) n = repeat (q + 1) r ++ repeat q (n - r)
  /\ zsum (spread q (D mod Z.of_nat n) n) = D.
Proof.
  intros HD Hn. cbn zeta.
  pose proof (Z.mod_pos_bound D (Z.of_nat n) ltac:(lia)) as B.
  rewrite spread_shape by lia. split; [reflexivity|].
  rewrite zsum_app, !zsum_repeat.
  rewrite Nat2Z.inj_sub by lia. rewrite Z2Nat.id by lia.
  pose proof (Z.div_mod D (Z.of_nat n) ltac:(lia)). nia.
Qed.

End DurationFacts.

(** ** The ledger *)

Section LedgerFacts.
Local Open Scope Q_scope.

Lemma geQ_true (x y : Q) : geQ x y = true <-> y <= x.
Proof. apply Qle_bool_iff. Qed.

Lemma geQ_false (x y : Q) : geQ x y = false <-> x < y.
Proof.
  unfold geQ. split; intros H.
  - apply Qnot_le_lt. intros L. apply Qle_bool_iff in L. congruence.
  - destruct (Qle_bool y x) eqn:E; [|reflexivity].
    apply Qle_bool_iff in E. lra.
Qed.

Lemma ltQ_true (x y : Q) : ltQ x y = true <-> x < y.
Proof.
  unfold ltQ. rewrite negb_true_iff. apply geQ_false.
Qed.

Lemma ltQ_false (x y : Q) : ltQ x y = false <-> y <= x.
Proof.
  unfold ltQ. rewrite negb_false_iff. apply Qle_bool_iff.
Qed.

(** What the [for] loop leaves in [adjacentOffset]: an entry below
    [offset], if it assigns at all. *)
Lemma adjacent_some (offset : Q) (kf : list Q) (acc : option Q) (a : Q) :
  adjacent offset kf acc = Some a ->
  acc = Some a \/ (In a kf /\ a < offset).
Proof.
  revert acc. induction kf as [|k kf IH]; intros acc H; simpl in H.
  - now left.
  - destruct (geQ k offset) eqn:E; [now left|].
    apply geQ_false in E.
    destruct (IH _ H) as [[= ->]|[I L]]; right; simpl; auto.
Qed.

Lemma prune_kept (a : Q) (kf : list Q) (m : Q) :
  fst (prune a kf m) = filter (fun k => geQ k a) kf.
Proof.
  revert m. induction kf as [|k kf IH]; intros m; simpl; [reflexivity|].
  specialize (IH (if ltQ k a then k else m)).
  destruct (prune a kf (if ltQ k a then k else m)) as [kept m'].
  simpl in *. now rewrite IH.
Qed.

(** [maxLimit] after the filter: untouched, or an entry below
    [adjacentOffset]. *)
Lemma prune_limit (a : Q) (kf : list Q) (m : Q) :
  snd (prune a kf m) = m
  \/ (In (snd (prune a kf m)) kf /\ snd (prune a kf m) < a).
Proof.
  revert m. induction kf as [|k kf IH]; intros m; simpl; [now left|].
  specialize (IH (if ltQ k a then k else m)).
  destruct (prune a kf (if ltQ k a then k else m)) as [kept m'].
  simpl in *. destruct IH as [E|[I L]]; [|now right; auto].
  destruct (ltQ k a) eqn:C; [|now left].
  right. subst m'. apply ltQ_true in C. auto.
Qed.

Lemma prune_limit_none (a : Q) (kf : list Q) (m : Q) :
  (forall e, In e kf -> ~ e < a) -> snd (prune a kf m) = m.
Proof.
  intros H. destruct (prune_limit a kf m) as [E|[I L]]; [exact E|].
  now destruct (H _ I).
Qed.

(** The two outcomes of [getSafeClearOffsetOfBuffer]: nothing pruned and
    the initial [maxLimit] returned, or the ledger filtered at an entry
    [a] below [offset]. *)
Lemma clear_offset_spec (this : JMuxmer) (offset : Q) :
  let r := fst (getSafeClearOffsetOfBuffer this offset) in
  let this' := snd (getSafeClearOffsetOfBuffer this offset) in
  (kfPosition this' = kfPosition this /\ r = initial_maxLimit this offset)
  \/ exists a,
       In a (kfPosition this) /\ a < offset
       /\ kfPosition this' = filter (fun k => geQ k a) (kfPosition this)
       /\ r = snd (prune a (kfPosition this) (initial_maxLimit this offset)).
Proof.
  cbn zeta. unfold getSafeClearOffsetOfBuffer.
  destruct (adjacent offset (kfPosition this) None) as [a|] eqn:A; [|now left].
  destruct (truthyQ a); [|now left].
  right. exists a.
  destruct (adjacent_some _ _ _ _ A) as [[=]|[I L]].
  pose proof (prune_kept a (kfPosition this) (initial_maxLimit this offset)) as K.
  destruct (prune a (kfPosition this) (initial_maxLimit this offset)) as [kept m].
  simpl in *. auto.
Qed.

(** The returned offset is the initial [maxLimit], or a ledger entry with
    another ledger entry between it and [offset]. *)
Lemma clear_offset_cases (this : JMuxmer) (offset : Q) :
  let r := fst (getSafeClearOffsetOfBuffer this offset) in
  r = initial_maxLimit this offset
  \/ exists a, In r (kfPosition this) /\ In a (kfPosition this)
               /\ r < a /\ a < offset.
Proof.
  cbn zeta. destruct (clear_offset_spec this offset) as [[_ E]|(a & I & L & _ & E)].
  - now left.
  - destruct (prune_limit a (kfPosition this) (initial_maxLimit this offset))
      as [E'|[I' L']].
    + left. congruence.
    + right. exists a. rewrite E. auto.
Qed.

Lemma initial_maxLimit_video (this : JMuxmer) (offset : Q) :
  is_audio this = false -> initial_maxLimit this offset = 0.
Proof. unfold initial_maxLimit. now intros ->. Qed.

Lemma initial_maxLimit_audio (this : JMuxmer) (offset : Q) :
  is_audio this = true -> initial_maxLimit this offset == offset.
Proof.
  unfold initial_maxLimit, truthyQ. intros ->. simpl.
  destruct (Qeq_bool offset 0) eqn:E; simpl; [|reflexivity].
  apply Qeq_bool_iff in E. now rewrite E.
Qed.

Lemma initial_maxLimit_le (this : JMuxmer) (offset : Q) :
  0 <= offset -> initial_maxLimit this offset <= offset.
Proof.
  intros H. unfold initial_maxLimit.
  destruct (is_audio this && truthyQ offset); lra.
Qed.

(** Filtering keeps a strictly ascending list strictly ascending. *)
Lemma filter_sorted (f : Q -> bool) (l : list Q) :
  StronglySorted Qlt l -> StronglySorted Qlt (filter f l).
Proof.
  induction 1 as [|x l S IH F]; simpl; [constructor|].
  destruct (f x); [|exact IH].
  constructor; [exact IH|].
  rewrite Forall_forall in *. intros y Hy. apply filter_In in Hy as [Hy _]. auto.
Qed.

Lemma snoc_sorted (l : list Q) (x : Q) :
  StronglySorted Qlt l -> Forall (fun e => e < x) l ->
  StronglySorted Qlt (l ++ [x]).
Proof.
  induction 1 as [|y l S IH F]; intros B; simpl.
  - repeat constructor.
  - inversion B as [|? ? By Bl]; subst.
    constructor; [now apply IH|].
    apply Forall_app; split; [exact F | now repeat constructor].
Qed.

Lemma sorted_entry_before (l1 l2 : list Q) (k k' : Q) :
  StronglySorted Qlt (l1 ++ k' :: k :: l2) ->
  entry_before (l1 ++ k' :: k :: l2) k k'.
Proof.
  intros S. assert (S' := S).
  induction l1 as [|x l1 IH]; simpl in *.
  - apply StronglySorted_inv in S as [S F].
    apply StronglySorted_inv in S as [S F2].
    inversion F as [|? ? Hk _]; subst.
    split; [now left|]. split; [exact Hk|].
    intros e [<-|[<-|I]] L; try lra.
    rewrite Forall_forall in F2. specialize (F2 _ I). lra.
  - apply StronglySorted_inv in S as [S F].
    destruct (IH S S) as (I & L & G).
    split; [now right|]. split; [exact L|].
    intros e [<-|I'] Le; [|now apply G].
    rewrite Forall_forall in F. specialize (F _ I). lra.
Qed.

End LedgerFacts.

(** * The claims *)

(** ** Frame assembly *)

Section FrameAssemblerClaims.
Context {P : Parsers}.

(** C5 — Frame-boundary condition.  After any sequence of units, the next
    unit closes the accumulated units into a frame exactly when one of the
    accumulated units is a VCL unit and the next unit is marked [isfmb] or
    is not a VCL unit; the closed frame holds the accumulated units, and the
    next unit opens a new list.  Otherwise no frame is closed and the unit
    joins the accumulated ones. *)
Theorem frame_boundary_condition (nalus : list bytes) (nalu : bytes) :
  let st := loop nalus in
  let unit := load nalu in
  loop (nalus ++ [nalu])
  = if existsb isvcl (l_units st) && (isfmb unit || negb (isvcl unit))
    then mkLoop [unit]
                (l_frames st ++ [mkFrame (l_units st) (l_keyFrame st) None])
                (isKeyframe unit) (isvcl unit)
    else mkLoop (l_units st ++ [unit]) (l_frames st)
                (l_keyFrame st || isKeyframe unit) (l_vcl st || isvcl unit).
Proof.
  cbn zeta. rewrite loop_snoc. unfold loop_body.
  rewrite (closes_spec _ _ _ (loop_invariant nalus)).
  destruct (existsb isvcl (l_units (loop nalus)) && _); reflexivity.
Qed.

Lemma length_concat_last (frames : list Frame) (us : list NALU) :
  List.length (concat_last frames us) = List.length frames.
Proof.
  destruct frames as [|f frames] using rev_ind; [reflexivity|].
  rewrite concat_last_snoc, !length_app. reflexivity.
Qed.

(** C6, amended — Chunk end.  The units still pending when a non-empty
    chunk ends become a frame of their own if one of them is a VCL unit or
    if no frame has been closed yet; otherwise (no VCL unit among them, and
    a closed frame, which always holds a VCL unit) they are appended to the
    units of the last closed frame, and the number of frames stays what it
    was.  In both cases the frames hold, in order, exactly the units of the
    chunk. *)
Theorem chunk_end (nalus : list bytes) :
  nalus <> [] ->
  let st := loop nalus in
  let own := existsb isvcl (l_units st) || (List.length (l_frames st) =? 0)%nat in
  l_units st <> []
  /\ Forall (fun f => existsb isvcl (units f) = true) (l_frames st)
  /\ assemble nalus
     = (if own
        then l_frames st ++ [mkFrame (l_units st) (existsb isKeyframe (l_units st)) None]
        else concat_last (l_frames st) (l_units st))
  /\ List.length (assemble nalus)
     = (if own then S (List.length (l_frames st)) else List.length (l_frames st))
  /\ List.concat (map units (assemble nalus)) = map load nalus.
Proof.
  intros N. cbn zeta. pose proof (loop_invariant nalus) as I.
  pose proof (inv_pending _ _ I N) as U.
  assert (A : assemble nalus
              = if existsb isvcl (l_units (loop nalus))
                   || (List.length (l_frames (loop nalus)) =? 0)%nat
                then l_frames (loop nalus)
                     ++ [mkFrame (l_units (loop nalus))
                                 (existsb isKeyframe (l_units (loop nalus))) None]
                else concat_last (l_frames (loop nalus)) (l_units (loop nalus))).
  { unfold assemble, loop_end.
    rewrite <- (inv_vcl _ _ I), <- (inv_key _ _ I).
    destruct (l_units (loop nalus)); [congruence | reflexivity]. }
  split; [exact U|]. split.
  { eapply Forall_impl; [|exact (inv_frames _ _ I)]. now intros f (V & _). }
  split; [exact A|]. split; [|apply assemble_units].
  rewrite A. destruct (_ || _).
  - rewrite length_app. simpl. lia.
  - apply length_concat_last.
Qed.

Lemma flags_transfer (out frames : list Frame) :
  map units out = map units frames ->
  map keyFrame out = map keyFrame frames ->
  Forall flag_is_or frames -> Forall flag_is_or out.
Proof.
  revert frames. induction out as [|o out IH]; intros [|f frames] U K F;
    try discriminate; constructor.
  - inversion F; subst. injection U as U1 _. injection K as K1 _.
    unfold flag_is_or in *. congruence.
  - inversion F; subst. injection U as _ U2. injection K as _ K2. eauto.
Qed.

(** C7 — Keyframe flag.  For a chunk whose keyframe units are VCL units (an
    IDR slice is a slice), the flag of every frame that [getVideoFrames]
    returns is the disjunction of [isKeyframe] over the units the frame
    finally holds, the frame extended at the chunk end included. *)
Theorem keyframe_flag (this : JMuxmer) (nalus : list bytes) (duration_ : Z) :
  keyframes_are_vcl nalus ->
  Forall flag_is_or (fst (getVideoFrames this nalus duration_)).
Proof.
  intros W. destruct (getVideoFrames_out this nalus duration_) as (U & K & _).
  eapply flags_transfer; eauto using assemble_flags.
Qed.

End FrameAssemblerClaims.

(** The units of the concrete unit class satisfy the hypothesis of C7,
    whatever the scanners. *)
Lemma spec_units_keyframes_are_vcl (sv sa : bytes -> list bytes) (nalus : list bytes) :
  keyframes_are_vcl (P := spec_parsers sv sa) nalus.
Proof.
  unfold keyframes_are_vcl. apply Forall_forall. intros nalu _.
  unfold load. simpl.
  destruct (_ || _); simpl; intros ->; apply orb_true_r.
Qed.

(** A chunk of five units: SEI, IDR slice, SEI, non-IDR slice, SEI.  The
    last SEI joins the second frame. *)
Lemma keyframe_flag_witness :
  keyframes_are_vcl (P := h264) [sei_unit; idr_slice; sei_unit; ndr_slice; sei_unit]
  /\ Forall flag_is_or
       (fst (getVideoFrames (P := h264) (new_JMuxmer (mkOptions "both" true) 33)
               [sei_unit; idr_slice; sei_unit; ndr_slice; sei_unit] 100)).
Proof.
  assert (W : keyframes_are_vcl (P := h264)
                [sei_unit; idr_slice; sei_unit; ndr_slice; sei_unit]).
  { repeat constructor; vm_compute; intros E; solve [reflexivity | discriminate E]. }
  split; [exact W | exact (keyframe_flag _ _ _ W)].
Defined.

Lemma chunk_end_witness :
  [idr_slice; ndr_slice; sei_unit] <> []
  /\ map (fun f => map payload (units f))
         (assemble (P := h264) [idr_slice; ndr_slice; sei_unit])
     = [[idr_slice]; [ndr_slice; sei_unit]].
Proof.
  assert (N : [idr_slice; ndr_slice; sei_unit] <> []) by discriminate.
  split; [exact N|].
  destruct (chunk_end (P := h264) _ N) as (_ & _ & A & _).
  rewrite A. reflexivity.
Defined.

(** C6, as stated, fails on a chunk of two slices that each start a
    picture: the second slice is pending at the chunk end, a frame with VCL
    content is closed already, and the slice still becomes a frame of its
    own instead of joining the first. *)
Lemma chunk_end_counterexample :
  ~ chunk_end_as_specified (P := h264) [idr_slice; ndr_slice].
Proof.
  intros H. assert (E := H ltac:(discriminate)).
  vm_compute in E. discriminate E.
Qed.

(** ** Durations *)

Section DurationClaims.
Context {P : Parsers}.

Lemma getVideoFrames_length (this : JMuxmer) (nalus : list bytes) (duration_ : Z) :
  List.length (fst (getVideoFrames this nalus duration_))
  = List.length (assemble nalus).
Proof.
  destruct (getVideoFrames_out this nalus duration_) as (U & _).
  rewrite <- (length_map units), U. apply length_map.
Qed.

Lemma assemble_length_pos (nalus : list bytes) :
  nalus <> [] -> (0 < List.length (assemble nalus))%nat.
Proof.
  intros N. pose proof (assemble_nonempty nalus N).
  destruct (assemble nalus); [congruence | simpl; lia].
Qed.

(** C4, amended — Remainder distribution.  For a chunk with a positive
    duration [D], assembled into [N >= 1] frames, with [D div N] below 2^31
    (the range of [| 0]): the frames get, in order, [D div N + 1] for the
    first [D mod N] of them and [D div N] for the others. *)
Theorem remainder_distribution (this : JMuxmer) (nalus : list bytes) (D : Z) :
  0 < D -> nalus <> [] ->
  let N := List.length (assemble nalus) in
  D / Z.of_nat N < 2 ^ 31 ->
  List.length (fst (getVideoFrames this nalus D)) = N
  /\ map duration (fst (getVideoFrames this nalus D))
     = map Some (repeat (D / Z.of_nat N + 1) (Z.to_nat (D mod Z.of_nat N))
                 ++ repeat (D / Z.of_nat N) (N - Z.to_nat (D mod Z.of_nat N))).
Proof.
  intros HD HN N HB. subst N. split; [apply getVideoFrames_length|].
  pose proof (assemble_length_pos nalus HN) as L.
  destruct (getVideoFrames_out this nalus D) as (_ & _ & E). rewrite E.
  destruct (base_duration_div this D _ HD L HB) as (-> & ->).
  now destruct (spread_div D _ HD L) as (-> & _).
Qed.

(** C1, amended — Duration conservation.  For a chunk with a positive
    duration [D], assembled into [N >= 1] frames, with [D div N] below 2^31
    (the range of [| 0]): every frame has a duration, and the durations sum
    to [D]; for the video frames and for the audio frames alike. *)
Theorem duration_conservation
  (this : JMuxmer) (nalus aacFrames : list bytes) (D : Z) :
  0 < D ->
  (nalus <> [] ->
   D / Z.of_nat (List.length (assemble nalus)) < 2 ^ 31 ->
   total (map duration (fst (getVideoFrames this nalus D))) = Some D)
  /\ (aacFrames <> [] ->
      D / Z.of_nat (List.length aacFrames) < 2 ^ 31 ->
      total (map aduration (getAudioFrames this aacFrames D)) = Some D).
Proof.
  intros HD. split; intros HN HB.
  - pose proof (assemble_length_pos nalus HN) as L.
    destruct (getVideoFrames_out this nalus D) as (_ & _ & E). rewrite E.
    destruct (base_duration_div this D _ HD L HB) as (-> & ->).
    rewrite total_Some. now destruct (spread_div D _ HD L) as (_ & ->).
  - assert (L : (0 < List.length aacFrames)%nat)
      by (destruct aacFrames; [congruence | simpl; lia]).
    rewrite getAudioFrames_out.
    destruct (base_duration_div this D _ HD L HB) as (-> & ->).
    rewrite total_Some. now destruct (spread_div D _ HD L) as (_ & ->).
Qed.

End DurationClaims.

(** The scenario of the specification: a duration of 100 over three frames
    gives 34, 33, 33. *)
Lemma remainder_distribution_witness :
  0 < 100
  /\ [idr_slice; ndr_slice; ndr_slice] <> []
  /\ 100 / Z.of_nat (List.length (assemble (P := h264) [idr_slice; ndr_slice; ndr_slice]))
     < 2 ^ 31
  /\ map duration
       (fst (getVideoFrames (P := h264) both_30fps [idr_slice; ndr_slice; ndr_slice] 100))
     = [Some 34; Some 33; Some 33].
Proof.
  assert (H1 : 0 < 100) by reflexivity.
  assert (H2 : [idr_slice; ndr_slice; ndr_slice] <> []) by discriminate.
  assert (H3 : 100 / Z.of_nat (List.length
                 (assemble (P := h264) [idr_slice; ndr_slice; ndr_slice])) < 2 ^ 31)
    by (vm_compute; reflexivity).
  split; [exact H1|]. split; [exact H2|]. split; [exact H3|].
  destruct (remainder_distribution (P := h264) both_30fps _ 100 H1 H2 H3) as (_ & E).
  rewrite E. reflexivity.
Defined.

Lemma duration_conservation_witness :
  0 < 100
  /\ total (map duration
       (fst (getVideoFrames (P := h264) both_30fps [idr_slice; ndr_slice; ndr_slice] 100)))
     = Some 100
  /\ total (map aduration
       (getAudioFrames both_30fps [adts_frame; adts_frame; adts_frame] 100))
     = Some 100.
Proof.
  assert (H1 : 0 < 100) by reflexivity.
  destruct (duration_conservation (P := h264) both_30fps
              [idr_slice; ndr_slice; ndr_slice]
              [adts_frame; adts_frame; adts_frame] 100 H1) as (V & A).
  split; [exact H1|]. split.
  - apply V; [discriminate | vm_compute; reflexivity].
  - apply A; [discriminate | vm_compute; reflexivity].
Defined.

(** C1, as stated, fails for a duration of 2^31 on one frame:
    [2147483648 / 1 | 0] is [-2147483648], [tt] is 2^32, and the frame gets
    the duration [-2147483647]. *)
Lemma duration_conservation_counterexample :
  0 < 2147483648
  /\ List.length (fst (getVideoFrames (P := h264) both_30fps [idr_slice] 2147483648))
     = 1%nat
  /\ total (map duration
       (fst (getVideoFrames (P := h264) both_30fps [idr_slice] 2147483648)))
     = Some (-2147483647)
  /\ total (map duration
       (fst (getVideoFrames (P := h264) both_30fps [idr_slice] 2147483648)))
     <> Some 2147483648.
Proof.
  repeat split; vm_compute; congruence.
Qed.

(** C4, as stated, fails for a duration of 3 * 2^31 on three frames: the
    base duration is [-2147483648], not the quotient 2147483648, and all
    three frames are incremented although the remainder of the division is
    zero. *)
Lemma remainder_distribution_counterexample :
  let D := 6442450944 in
  let frames :=
    fst (getVideoFrames (P := h264) both_30fps [idr_slice; ndr_slice; ndr_slice] D) in
  List.length frames = 3%nat
  /\ map duration frames
     = [Some (-2147483647); Some (-2147483647); Some (-2147483647)]
  /\ map duration frames
     <> map Some (repeat (D / 3 + 1) (Z.to_nat (D mod 3))
                  ++ repeat (D / 3) (3 - Z.to_nat (D mod 3))).
Proof.
  repeat split; vm_compute; congruence.
Qed.

(** ** The keyframe position ledger *)

Section LedgerClaims.
Context {P : Parsers}.
Local Open Scope Q_scope.

(** C10 — For a playback position [p >= 0], whatever the ledger and the
    mode, the offset that [getSafeClearOffsetOfBuffer] returns is at most
    [p]. *)
Theorem clear_offset_at_most_position (this : JMuxmer) (p : Q) :
  0 <= p -> fst (getSafeClearOffsetOfBuffer this p) <= p.
Proof.
  intros Hp. destruct (clear_offset_cases this p) as [E|(a & _ & _ & L1 & L2)].
  - rewrite E. now apply initial_maxLimit_le.
  - lra.
Qed.

(** *** Ordering *)

Lemma Qmake_le (a b : Z) : (a <= b)%Z -> Qmake a 1000 <= Qmake b 1000.
Proof. intros H. unfold Qle. simpl. lia. Qed.

Lemma Qmake_lt (a b : Z) : (a < b)%Z -> Qmake a 1000 < Qmake b 1000.
Proof. intros H. unfold Qlt. simpl. lia. Qed.

Lemma count_frame_inv (fd : Z) (this : JMuxmer) (frame : Frame) :
  (0 < fd)%Z -> ledger_inv fd this -> ledger_inv fd (count_frame fd this frame).
Proof.
  intros Hfd [C S B]. unfold count_frame.
  assert (M : Qmake (kfCounter this * fd) 1000 < Qmake ((kfCounter this + 1) * fd) 1000)
    by (apply Qmake_lt; lia).
  assert (B' : Forall (fun e => 0 < e /\ e <= Qmake ((kfCounter this + 1) * fd) 1000)
                      (kfPosition this)).
  { eapply Forall_impl; [|exact B]. simpl. intros e [E1 E2]. split; lra. }
  split; simpl.
  - lia.
  - destruct (keyFrame frame && opt_clearBuffer (options this)); [|exact S].
    apply snoc_sorted; [exact S|].
    eapply Forall_impl; [|exact B]. simpl. intros e [_ E2]. lra.
  - destruct (keyFrame frame && opt_clearBuffer (options this)); [|exact B'].
    apply Forall_app. split; [exact B'|]. constructor; [|constructor].
    split; [|lra].
    assert (Qmake 0 1000 < Qmake ((kfCounter this + 1) * fd) 1000)
      by (apply Qmake_lt; nia).
    assert (Qmake 0 1000 == 0) by reflexivity. lra.
Qed.

Lemma count_frames_inv (fd : Z) (frames : list Frame) (this : JMuxmer) :
  (0 < fd)%Z -> ledger_inv fd this ->
  ledger_inv fd (fold_left (count_frame fd) frames this).
Proof.
  intros Hfd. revert this.
  induction frames as [|f frames IH]; intros this I; simpl; [exact I|].
  apply IH. now apply count_frame_inv.
Qed.

Lemma count_frames_fixed (fd : Z) (frames : list Frame) (this : JMuxmer) :
  options (fold_left (count_frame fd) frames this) = options this
  /\ frameDuration (fold_left (count_frame fd) frames this) = frameDuration this.
Proof.
  revert this. induction frames as [|f frames IH]; intros this; simpl; [auto|].
  destruct (IH (count_frame fd this f)) as [-> ->]. auto.
Qed.

Lemma clear_fixed (this : JMuxmer) (offset : Q) :
  let this' := snd (getSafeClearOffsetOfBuffer this offset) in
  options this' = options this
  /\ frameDuration this' = frameDuration this
  /\ kfCounter this' = kfCounter this.
Proof.
  cbn zeta. unfold getSafeClearOffsetOfBuffer.
  destruct (adjacent offset (kfPosition this) None) as [a|]; [|auto].
  destruct (truthyQ a); [|auto].
  destruct (prune a (kfPosition this) (initial_maxLimit this offset)). simpl. auto.
Qed.

(** A cleaning pass keeps an ascending ledger ascending, in every mode. *)
Lemma clear_ascending (this : JMuxmer) (offset : Q) :
  ascending (kfPosition this) ->
  ascending (kfPosition (snd (getSafeClearOffsetOfBuffer this offset))).
Proof.
  intros S. destruct (clear_offset_spec this offset) as [[-> _]|(a & _ & _ & -> & _)];
    [exact S | now apply filter_sorted].
Qed.

Lemma clear_inv (fd : Z) (this : JMuxmer) (offset : Q) :
  ledger_inv fd this -> ledger_inv fd (snd (getSafeClearOffsetOfBuffer this offset)).
Proof.
  intros [C S B]. destruct (clear_fixed this offset) as (_ & _ & EC).
  split.
  - now rewrite EC.
  - now apply clear_ascending.
  - rewrite EC.
    destruct (clear_offset_spec this offset) as [[-> _]|(a & _ & _ & -> & _)];
      [exact B|].
    rewrite Forall_forall in *. intros e He. apply filter_In in He as [He _]. auto.
Qed.

Lemma base_duration_frameDuration (this this' : JMuxmer) (d : Z) (n : nat) :
  frameDuration this = frameDuration this' ->
  base_duration this d n = base_duration this' d n.
Proof. unfold base_duration. now intros ->. Qed.

Lemma apply_op_inv (frameDuration_ fd : Z) (this : JMuxmer) (op : Op) :
  (0 < fd)%Z -> frameDuration this = frameDuration_ ->
  same_fd frameDuration_ fd op ->
  ledger_inv fd this ->
  ledger_inv fd (apply_op this op)
  /\ frameDuration (apply_op this op) = frameDuration_
  /\ options (apply_op this op) = options this.
Proof.
  intros Hfd HF HS I. destruct op as [nalus d|offset]; simpl.
  - rewrite getVideoFrames_state. unfold same_fd in HS. simpl in HS.
    rewrite (base_duration_frameDuration this
               (new_JMuxmer (mkOptions "" false) frameDuration_))
      by (rewrite HF; reflexivity).
    rewrite HS.
    destruct (count_frames_fixed fd (assemble nalus) this) as [EO EF].
    pose proof (count_frames_inv fd (assemble nalus) this Hfd I) as [C S B].
    split; [|split; simpl; congruence].
    split; simpl; assumption.
  - destruct (clear_fixed this offset) as (EO & EF & _).
    split; [now apply clear_inv | split; congruence].
Qed.

Lemma ops_inv (frameDuration_ fd : Z) (ops : list Op) (this : JMuxmer) :
  (0 < fd)%Z -> frameDuration this = frameDuration_ ->
  Forall (same_fd frameDuration_ fd) ops ->
  ledger_inv fd this ->
  ledger_inv fd (fold_left apply_op ops this)
  /\ options (fold_left apply_op ops this) = options this.
Proof.
  intros Hfd. revert this.
  induction ops as [|op ops IH]; intros this HF HS I; simpl; [auto|].
  inversion HS as [|? ? H1 H2]; subst.
  destruct (apply_op_inv _ fd this op Hfd eq_refl H1 I) as (I' & F' & O').
  destruct (IH _ F' H2 I') as (I'' & O''). split; [exact I'' | congruence].
Qed.

End LedgerClaims.

(** *** Examples on the ledger *)

Lemma four_keyframes_ledger :
  kfPosition four_keyframes
  = [Qmake 33 1000; Qmake 66 1000; Qmake 99 1000; Qmake 132 1000].
Proof. vm_compute. reflexivity. Qed.

Lemma clear_offset_at_most_position_witness :
  (0 <= 1 /\ fst (getSafeClearOffsetOfBuffer audio_fed_video 1) <= 1)%Q.
Proof.
  assert (H : (0 <= 1)%Q) by discriminate.
  split; [exact H | exact (clear_offset_at_most_position audio_fed_video 1 H)].
Defined.


(** C3 — Ledger ordering fails on [jittering_durations]: the first three
    keyframes are entered at 1 * 34, 2 * 34 and 3 * 34 ms, the fourth at
    4 * 25 ms, below the third. *)
Theorem ledger_ordering_failing_input :
  kfPosition jittering_durations
  = [Qmake 34 1000; Qmake 68 1000; Qmake 102 1000; Qmake 100 1000]
  /\ ~ ascending (kfPosition jittering_durations).
Proof.
  assert (E : kfPosition jittering_durations
              = [Qmake 34 1000; Qmake 68 1000; Qmake 102 1000; Qmake 100 1000])
    by (vm_compute; reflexivity).
  split; [exact E|]. rewrite E. intros S.
  apply StronglySorted_inv in S as [S _].
  apply StronglySorted_inv in S as [S _].
  apply StronglySorted_inv in S as [_ F].
  inversion F as [|? ? L _]. discriminate L.
Qed.

(** ** Rejected chunks and buffer errors *)

Section MethodClaims.
Context {P : Parsers}.

(** C8, amended — Invalid-chunk rejection.  A call of [feed] with no data
    at all, or on a muxer already destroyed, returns at once: nothing is
    logged and the muxer is as it was.  A call on a live muxer with a chunk
    whose video and audio fields, where present, yield no unit returns after
    logging one error, and the muxer is otherwise as it was.  No call throws,
    none reaches the remuxer, and the counter, the ledger and the liveness of
    the muxer are the same before and after, so the next chunk is treated as
    if the rejected one had not been fed. *)
Theorem invalid_chunk_rejection (this : JMuxmer) (data : option Data) :
  invalid_input data ->
  let logs :=
    match data with
    | Some _ => remuxController this
    | None => false
    end in
  let this' := if logs then call (debug_error feed_error) this else this in
  feed data this = Ok tt this'
  /\ kfCounter this' = kfCounter this
  /\ kfPosition this' = kfPosition this
  /\ remuxController this' = remuxController this
  /\ calls this' = calls this ++ (if logs then [debug_error feed_error] else [])
  /\ existsb is_remux (if logs then [debug_error feed_error] else []) = false.
Proof.
  intros H. cbn zeta.
  assert (F : feed data this
              = Ok tt (if match data with
                          | Some _ => remuxController this
                          | None => false
                          end
                       then call (debug_error feed_error) this else this)).
  { destruct data as [d|]; [|reflexivity].
    destruct H as [HV HA]. unfold feed, bind, get.
    destruct (remuxController this); [|reflexivity]. simpl.
    destruct (video d) as [v|] eqn:EV; [rewrite (HV v eq_refl)|];
      (destruct (audio d) as [a|] eqn:EA; [rewrite (HA a eq_refl)|]);
      reflexivity. }
  split; [exact F|].
  destruct (match data with Some _ => remuxController this | None => false end);
    simpl; repeat split; now rewrite ?app_nil_r.
Qed.

(** *** The calls only grow *)

Lemma for_each_calls {A} (l : list A) (c : A -> Call) (this : JMuxmer) :
  for_each l (fun x => update (call (c x))) this
  = Ok tt (fold_left (fun s x => call (c x) s) l this).
Proof.
  revert this. induction l as [|x l IH]; intros this; simpl; [reflexivity|].
  unfold bind, update at 1. apply IH.
Qed.

Lemma fold_call_calls {A} (l : list A) (c : A -> Call) (this : JMuxmer) :
  calls (fold_left (fun s x => call (c x) s) l this) = calls this ++ map c l.
Proof.
  revert this. induction l as [|x l IH]; intros this; simpl.
  - now rewrite app_nil_r.
  - rewrite IH. simpl. now rewrite <- app_assoc.
Qed.

Lemma count_frames_calls (fd : Z) (frames : list Frame) (this : JMuxmer) :
  calls (fold_left (count_frame fd) frames this) = calls this.
Proof.
  revert this. induction frames as [|f frames IH]; intros this; simpl; [reflexivity|].
  now rewrite IH.
Qed.

Lemma getVideoFrames_calls (this : JMuxmer) (nalus : list bytes) (d : Z) :
  exists l, calls (snd (getVideoFrames this nalus d)) = calls this ++ l.
Proof.
  rewrite getVideoFrames_state. simpl. rewrite count_frames_calls. eauto.
Qed.

Lemma feed_calls (data : option Data) (this : JMuxmer) :
  exists l, calls (state_of (feed data this)) = calls this ++ l.
Proof.
  destruct data as [d|]; simpl; [|exists []; now rewrite app_nil_r].
  unfold bind, get. destruct (remuxController this); simpl;
    [|exists []; now rewrite app_nil_r].
  destruct (video d) as [v|].
  - destruct (0 <? List.length (extractNALu v))%nat.
    + destruct (getVideoFrames_calls this (extractNALu v)
                  (match data_duration d with
                   | Some d0 => if truthy d0 then d0 else 0
                   | None => 0
                   end)) as [l E].
      destruct (getVideoFrames this _ _) as [frames this1]. simpl in *.
      destruct (audio d) as [a|]; [destruct (0 <? List.length (extractAAC a))%nat|];
        simpl; rewrite E, <- app_assoc; eauto.
    + unfold ret.
      destruct (audio d) as [a|]; [destruct (0 <? List.length (extractAAC a))%nat|];
        simpl; eauto.
  - unfold ret.
    destruct (audio d) as [a|]; [destruct (0 <? List.length (extractAAC a))%nat|];
      simpl; eauto.
Qed.

Lemma releaseBuffer_calls (this : JMuxmer) :
  exists l, calls (state_of (releaseBuffer this)) = calls this ++ l.
Proof.
  unfold releaseBuffer, bind, get.
  destruct (bufferControllers this) as [keys|]; simpl.
  - rewrite for_each_calls. simpl. rewrite fold_call_calls. eauto.
  - exists []. now rewrite app_nil_r.
Qed.

Lemma onBuffer_calls (type : string) (p : bytes) (this : JMuxmer) :
  exists l, calls (state_of (onBuffer type p this)) = calls this ++ l.
Proof.
  unfold onBuffer, bind, get. cbv beta iota.
  destruct (bufferControllers this) as [keys|] eqn:B;
    [destruct (has_key type keys); [|destruct (has_key type Object_prototype)]|];
    unfold update, throw, ret; cbv beta iota.
  - destruct (releaseBuffer_calls (call (bc_feed type p) this)) as [l E].
    rewrite E. simpl. rewrite <- app_assoc. eauto.
  - exists []. simpl. now rewrite app_nil_r.
  - apply releaseBuffer_calls.
  - apply releaseBuffer_calls.
Qed.

Lemma onBufferError_calls (type name : string) (this : JMuxmer) :
  exists l, calls (state_of (onBufferError type name this)) = calls this ++ l.
Proof.
  unfold onBufferError, bind, get, when, update, throw, ret.
  destruct (name =? "QuotaExceeded")%string.
  - destruct (bufferControllers this) as [keys|]; [destruct (has_key type keys)|];
      simpl; eauto; exists []; now rewrite app_nil_r.
  - destruct ((0 <? List.length (ms_sourceBuffers this))%nat
              && has_key type (sourceBuffers this)); simpl;
      match goal with
      | |- context [(List.length ?l =? 0)%nat] => destruct (List.length l =? 0)%nat
      end; simpl; rewrite <- ?app_assoc; eauto; exists []; now rewrite app_nil_r.
Qed.

Lemma dispatch_calls (e : Event) (this : JMuxmer) :
  exists l, calls (state_of (dispatch e this)) = calls this ++ l.
Proof.
  destruct e; simpl.
  - apply onBuffer_calls.
  - apply onBufferError_calls.
  - exists []. now rewrite app_nil_r.
  - apply feed_calls.
Qed.

Lemma run_cons (e : Event) (es : list Event) (this : JMuxmer) :
  run (e :: es) this = run es (state_of (dispatch e this)).
Proof. simpl. now destruct (dispatch e this). Qed.

Lemma run_calls (es : list Event) (this : JMuxmer) :
  exists l, calls (run es this) = calls this ++ l.
Proof.
  revert this. induction es as [|e es IH]; intros this.
  - exists []. simpl. now rewrite app_nil_r.
  - rewrite run_cons. destruct (IH (state_of (dispatch e this))) as [l E].
    destruct (dispatch_calls e this) as [l' E'].
    rewrite E, E', <- app_assoc. eauto.
Qed.

(** C9 — Quota recovery.  When the buffer controller of a track reports
    [QuotaExceeded], the handler calls [initCleanup] on that controller with
    the current playback position and does nothing else: it does not remove
    a source buffer, does not end the stream, and leaves the attached source
    buffers as they are.  Whatever events follow, the cleanup call comes in
    the sequence of calls right after the calls made before the error and
    before every call made afterwards, any append included. *)
Theorem quota_recovery
  (this : JMuxmer) (type : string) (keys : list string) (later : list Event) :
  bufferControllers this = Some keys ->
  has_key type keys = true ->
  let cleanup := bc_initCleanup type (currentTime this) in
  onBufferError type "QuotaExceeded" this = Ok tt (call cleanup this)
  /\ calls (call cleanup this) = calls this ++ [cleanup]
  /\ ms_sourceBuffers (call cleanup this) = ms_sourceBuffers this
  /\ exists after,
       calls (run (ev_error type "QuotaExceeded" :: later) this)
       = calls this ++ cleanup :: after.
Proof.
  intros HB HK. cbn zeta.
  assert (E : onBufferError type "QuotaExceeded" this
              = Ok tt (call (bc_initCleanup type (currentTime this)) this)).
  { unfold onBufferError, bind, get. simpl. now rewrite HB, HK. }
  split; [exact E|]. split; [reflexivity|]. split; [reflexivity|].
  rewrite run_cons. simpl dispatch. rewrite E. simpl state_of.
  destruct (run_calls later (call (bc_initCleanup type (currentTime this)) this))
    as [l R].
  exists l. rewrite R. simpl. now rewrite <- app_assoc.
Qed.

End MethodClaims.

(** *** Examples on [feed] and [onBufferError] *)

Lemma invalid_chunk_rejection_witness :
  invalid_input (P := h264) (Some no_start_code)
  /\ feed (P := h264) (Some no_start_code) both_30fps
     = Ok tt (call (debug_error feed_error) both_30fps).
Proof.
  assert (H : invalid_input (P := h264) (Some no_start_code)).
  { split; intros bs E; [injection E as <-; reflexivity | discriminate E]. }
  split; [exact H|].
  exact (proj1 (invalid_chunk_rejection (P := h264) both_30fps (Some no_start_code) H)).
Defined.

(** C8, as stated, fails for a call with no data at all: [feed] returns
    without logging anything. *)
Lemma invalid_chunk_rejection_counterexample :
  invalid_input (P := h264) None
  /\ feed (P := h264) None both_30fps = Ok tt both_30fps
  /\ ~ rejected_with_log both_30fps (feed (P := h264) None both_30fps).
Proof.
  split; [exact I|]. split; [reflexivity|].
  unfold rejected_with_log. simpl. intros E. discriminate E.
Qed.

(** After a rejected chunk the next valid chunk is remuxed as usual. *)
Lemma feed_after_rejection :
  calls (run (P := h264) [ev_feed (Some no_start_code); ev_feed (Some (idr_chunk (Some 40)))]
             both_30fps)
  = [debug_error feed_error; debug_log_frames 1;
     rc_remux [mkFrame [load (P := h264) idr_slice] true (Some 40)] []].
Proof. vm_compute. reflexivity. Qed.

Lemma quota_recovery_witness :
  bufferControllers playing = Some ["video"; "audio"]%string
  /\ has_key "video" ["video"; "audio"]%string = true
  /\ onBufferError "video" "QuotaExceeded" playing
     = Ok tt (call (bc_initCleanup "video" 12) playing).
Proof.
  split; [reflexivity|]. split; [reflexivity|].
  exact (proj1 (quota_recovery (P := h264) playing "video" ["video"; "audio"]%string []
                  eq_refl eq_refl)).
Defined.

(** An error other than [QuotaExceeded] on the last attached buffer takes
    the other path: the buffer is removed and the stream is ended. *)
Lemma fatal_error_example :
  calls (state_of (onBufferError "video" "InvalidStateError"
                     (set_ms_sourceBuffers ["video"%string] playing)))
  = [ms_removeSourceBuffer "video"; ms_endOfStream].
Proof. vm_compute. reflexivity. Qed.

(** * Further properties of the code *)

(** ** What [getVideoFrames] returns *)

Section AssemblerMore.
Context {P : Parsers}.

Lemma assemble_hold_vcl (nalus : list bytes) :
  existsb isvcl (map load nalus) = true ->
  Forall (fun us => existsb isvcl us = true) (map units (assemble nalus)).
Proof.
  intros V. pose proof (loop_invariant nalus) as I.
  assert (F : Forall (fun us => existsb isvcl us = true)
                     (map units (l_frames (loop nalus)))).
  { apply Forall_map. eapply Forall_impl; [|exact (inv_frames _ _ I)].
    now intros f (H & _). }
  unfold assemble, loop_end.
  destruct (List.length (l_units (loop nalus)) =? 0)%nat eqn:U; simpl; [exact F|].
  destruct (l_vcl (loop nalus)) eqn:E; simpl.
  - rewrite map_app. apply Forall_app. split; [exact F|].
    repeat constructor. simpl. now rewrite <- (inv_vcl _ _ I).
  - destruct (List.length (l_frames (loop nalus)) =? 0)%nat eqn:L.
    + exfalso. pose proof (inv_units _ _ I) as IU.
      destruct (l_frames (loop nalus)); [|discriminate]. simpl in IU.
      rewrite <- IU, <- (inv_vcl _ _ I), E in V. discriminate.
    + destruct (nonempty_snoc _ L) as (fs & f & EQ). rewrite EQ in *.
      rewrite concat_last_snoc, map_app. rewrite map_app in F.
      apply Forall_app in F as [F1 F2]. apply Forall_app. split; [exact F1|].
      inversion F2 as [|? ? H _]; subst. repeat constructor. simpl.
      rewrite existsb_app. simpl in H. now rewrite H.
Qed.

(** X1 — If a unit of the chunk is a VCL unit, every frame that
    [getVideoFrames] returns holds a VCL unit: parameter sets and SEI
    messages never make a frame by themselves. *)
Theorem frames_hold_vcl (this : JMuxmer) (nalus : list bytes) (duration_ : Z) :
  existsb isvcl (map load nalus) = true ->
  Forall (fun f => existsb isvcl (units f) = true)
         (fst (getVideoFrames this nalus duration_)).
Proof.
  intros V. destruct (getVideoFrames_out this nalus duration_) as (U & _).
  apply (Forall_map units (fun us => existsb isvcl us = true)).
  rewrite U. now apply assemble_hold_vcl.
Qed.

Lemma existsb_concat_in {A} (f : A -> bool) (ls : list (list A)) (l : list A) :
  In l ls -> existsb f l = true -> existsb f (List.concat ls) = true.
Proof.
  induction ls as [|x ls IH]; simpl; [tauto|].
  intros [->|I] E; rewrite existsb_app.
  - now rewrite E.
  - rewrite (IH I E). apply orb_true_r.
Qed.

(** X2 — A non-empty chunk without any VCL unit comes back as one frame that
    holds all its units. *)
Theorem no_vcl_single_frame (this : JMuxmer) (nalus : list bytes) (duration_ : Z) :
  nalus <> [] ->
  existsb isvcl (map load nalus) = false ->
  map units (fst (getVideoFrames this nalus duration_)) = [map load nalus].
Proof.
  intros N V. destruct (getVideoFrames_out this nalus duration_) as (U & _).
  rewrite U. pose proof (loop_invariant nalus) as I.
  assert (F : l_frames (loop nalus) = []).
  { destruct (l_frames (loop nalus)) as [|f fs] eqn:E; [reflexivity|exfalso].
    pose proof (inv_frames _ _ I) as IF. rewrite E in IF.
    inversion IF as [|? ? (H & _) _]; subst.
    pose proof (inv_units _ _ I) as IU. rewrite E in IU.
    rewrite <- IU, existsb_app in V. apply orb_false_iff in V as [V _].
    simpl in V. rewrite existsb_app, H in V. discriminate. }
  pose proof (inv_units _ _ I) as IU. rewrite F in IU. simpl in IU.
  pose proof (inv_pending _ _ I N) as Pn.
  unfold assemble, loop_end. rewrite F.
  destruct (l_units (loop nalus)) eqn:E; [congruence|].
  simpl. rewrite orb_true_r. simpl. now rewrite <- IU.
Qed.

Lemma length_le_concat {A} (ls : list (list A)) :
  Forall (fun l => l <> []) ls -> (List.length ls <= List.length (List.concat ls))%nat.
Proof.
  induction 1 as [|l ls H _ IH]; simpl; [lia|].
  rewrite length_app. destruct l; [congruence | simpl; lia].
Qed.

Lemma assemble_frames_nonempty (nalus : list bytes) :
  Forall (fun us => us <> []) (map units (assemble nalus)).
Proof.
  pose proof (loop_invariant nalus) as I.
  assert (F : Forall (fun us : list NALU => us <> [])
                     (map units (l_frames (loop nalus)))).
  { apply Forall_map. eapply Forall_impl; [|exact (inv_frames _ _ I)].
    intros f (H & _) E. rewrite E in H. discriminate. }
  unfold assemble, loop_end.
  destruct (l_units (loop nalus)) as [|u us] eqn:EU; simpl; [exact F|].
  destruct (l_vcl (loop nalus) || (List.length (l_frames (loop nalus)) =? 0)%nat)
    eqn:E.
  - rewrite map_app. apply Forall_app. split; [exact F|].
    repeat constructor. simpl. discriminate.
  - apply orb_false_iff in E as [_ L].
    destruct (nonempty_snoc _ L) as (fs & f & EQ). rewrite EQ in *.
    rewrite concat_last_snoc, map_app. rewrite map_app in F.
    apply Forall_app in F as [F1 _]. apply Forall_app. split; [exact F1|].
    repeat constructor. simpl. intros E'. now apply app_eq_nil in E' as [_ E'].
Qed.

(** X3 — Every frame that [getVideoFrames] returns holds at least one unit, and
    a chunk of [n >= 1] units gives between 1 and [n] frames. *)
Theorem frame_count_bounds (this : JMuxmer) (nalus : list bytes) (duration_ : Z) :
  nalus <> [] ->
  let frames := fst (getVideoFrames this nalus duration_) in
  Forall (fun f => units f <> []) frames
  /\ (1 <= List.length frames <= List.length nalus)%nat.
Proof.
  intros N. cbn zeta.
  destruct (getVideoFrames_out this nalus duration_) as (U & _).
  pose proof (assemble_frames_nonempty nalus) as F.
  split.
  - apply (Forall_map units (fun us => us <> [])). now rewrite U.
  - rewrite getVideoFrames_length. split.
    + pose proof (assemble_length_pos nalus N). lia.
    + pose proof (length_le_concat _ F) as L.
      rewrite assemble_units, !length_map in L. exact L.
Qed.

(** X4 — Without a duration ([duration] is 0 or absent), every video frame and
    every audio frame gets [this.frameDuration]. *)
Theorem fallback_duration (this : JMuxmer) (nalus aacFrames : list bytes) :
  map duration (fst (getVideoFrames this nalus 0))
  = repeat (Some (frameDuration this)) (List.length (assemble nalus))
  /\ map aduration (getAudioFrames this aacFrames 0)
     = repeat (Some (frameDuration this)) (List.length aacFrames).
Proof.
  split.
  - destruct (getVideoFrames_out this nalus 0) as (_ & _ & D). rewrite D.
    unfold base_duration, remainder. simpl.
    rewrite spread_zero by lia. apply map_repeat.
  - rewrite getAudioFrames_out. unfold base_duration, remainder. simpl.
    rewrite spread_zero by lia. apply map_repeat.
Qed.

Lemma count_frames_growth (fd : Z) (frames : list Frame) (this : JMuxmer) :
  let this' := fold_left (count_frame fd) frames this in
  kfCounter this' = kfCounter this + Z.of_nat (List.length frames)
  /\ exists entries,
       kfPosition this' = kfPosition this ++ entries
       /\ List.length entries
          = if opt_clearBuffer (options this)
            then List.length (filter keyFrame frames) else O.
Proof.
  cbn zeta. revert this. induction frames as [|f frames IH]; intros this.
  - simpl. split; [lia|]. exists []. rewrite app_nil_r.
    now destruct (opt_clearBuffer (options this)).
  - simpl fold_left. destruct (IH (count_frame fd this f)) as (C & entries & E & L).
    split; [rewrite C; simpl; lia|].
    rewrite E. simpl in *.
    destruct (keyFrame f), (opt_clearBuffer (options this)); simpl in *.
    + eexists. rewrite <- app_assoc. split; [reflexivity|]. simpl. now rewrite L.
    + eauto.
    + eauto.
    + eauto.
Qed.

Lemma filter_length_map {A B} (f : A -> bool) (g : B -> bool) (l : list A) (l' : list B) :
  map f l = map g l' -> List.length (filter f l) = List.length (filter g l').
Proof.
  revert l'. induction l as [|x l IH]; intros [|y l'] E; try discriminate; simpl;
    [reflexivity|].
  injection E as E1 E2. rewrite E1. destruct (g y); simpl; auto.
Qed.

Lemma getVideoFrames_counter (this : JMuxmer) (nalus : list bytes) (duration_ : Z) :
  kfCounter (snd (getVideoFrames this nalus duration_))
  = kfCounter this + Z.of_nat (List.length (fst (getVideoFrames this nalus duration_))).
Proof.
  rewrite getVideoFrames_state at 1. simpl. rewrite getVideoFrames_length.
  now destruct (count_frames_growth
                  (base_duration this duration_ (List.length (assemble nalus)))
                  (assemble nalus) this) as (C & _).
Qed.

(** X5 — [getVideoFrames] advances [kfCounter] by the number of frames it
    returns and only appends to the ledger: one entry per returned keyframe
    when [clearBuffer] is set, none otherwise.  It leaves the options, the
    frame duration and the playback position alone. *)
Theorem counter_and_ledger_growth (this : JMuxmer) (nalus : list bytes) (duration_ : Z) :
  let frames := fst (getVideoFrames this nalus duration_) in
  let this' := snd (getVideoFrames this nalus duration_) in
  kfCounter this' = kfCounter this + Z.of_nat (List.length frames)
  /\ (exists entries,
        kfPosition this' = kfPosition this ++ entries
        /\ List.length entries
           = if opt_clearBuffer (options this)
             then List.length (filter keyFrame frames) else O)
  /\ options this' = options this
  /\ frameDuration this' = frameDuration this.
Proof.
  cbn zeta. rewrite getVideoFrames_state.
  destruct (getVideoFrames_out this nalus duration_) as (_ & K & _).
  set (fd := base_duration this duration_ (List.length (assemble nalus))).
  destruct (count_frames_growth fd (assemble nalus) this) as (C & entries & E & L).
  destruct (count_frames_fixed fd (assemble nalus) this) as (O1 & O2).
  simpl. rewrite getVideoFrames_length. split; [exact C|]. split; [|auto].
  exists entries. split; [exact E|].
  rewrite L. destruct (opt_clearBuffer (options this)); [|reflexivity].
  symmetry. now apply filter_length_map.
Qed.

End AssemblerMore.

(** ** More on [getSafeClearOffsetOfBuffer] *)

Section LedgerMore.
Local Open Scope Q_scope.

Lemma filter_filter {A} (f : A -> bool) (l : list A) :
  filter f (filter f l) = filter f l.
Proof.
  induction l as [|x l IH]; simpl; [reflexivity|].
  destruct (f x) eqn:E; simpl; [rewrite E|]; now rewrite ?IH.
Qed.

Lemma filter_all {A} (l : list A) : filter (fun _ => true) l = l.
Proof. induction l as [|x l IH]; simpl; [reflexivity | now rewrite IH]. Qed.

(** The scan finds the same entry again in the filtered ledger. *)
Lemma adjacent_filter (p a : Q) (l : list Q) (acc acc' : option Q) :
  a < p ->
  adjacent p l acc = Some a ->
  (acc = Some a -> acc' = Some a) ->
  adjacent p (filter (fun k => geQ k a) l) acc' = Some a.
Proof.
  intros Hp. revert acc acc'. induction l as [|k l IH]; intros acc acc' H R; simpl in *.
  - auto.
  - destruct (geQ k p) eqn:E.
    + apply geQ_true in E.
      assert (G : geQ k a = true) by (apply geQ_true; lra).
      rewrite G. simpl. rewrite (proj2 (geQ_true k p) E). auto.
    + destruct (geQ k a) eqn:G; simpl.
      * rewrite E. apply (IH (Some k)); auto.
      * apply (IH (Some k)); auto.
        intros [= ->]. apply geQ_false in G. now apply Qlt_irrefl in G.
Qed.

(** The method as one equation. *)
Lemma clear_offset_eq (this : JMuxmer) (p : Q) :
  getSafeClearOffsetOfBuffer this p
  = match adjacent p (kfPosition this) None with
    | Some a =>
        if truthyQ a
        then (snd (prune a (kfPosition this) (initial_maxLimit this p)),
              set_kf this (kfCounter this)
                     (filter (fun k => geQ k a) (kfPosition this)))
        else (initial_maxLimit this p, this)
    | None => (initial_maxLimit this p, this)
    end.
Proof.
  unfold getSafeClearOffsetOfBuffer.
  destruct (adjacent p (kfPosition this) None) as [a|]; [|reflexivity].
  destruct (truthyQ a); [|reflexivity].
  pose proof (prune_kept a (kfPosition this) (initial_maxLimit this p)) as K.
  destruct (prune a (kfPosition this) (initial_maxLimit this p)) as [kept m].
  simpl in *. now rewrite K.
Qed.

Lemma clear_offset_again (this : JMuxmer) (p : Q) :
  let this' := snd (getSafeClearOffsetOfBuffer this p) in
  getSafeClearOffsetOfBuffer this' p = (initial_maxLimit this p, this').
Proof.
  cbn zeta. rewrite (clear_offset_eq this p).
  destruct (adjacent p (kfPosition this) None) as [a|] eqn:A.
  - destruct (truthyQ a) eqn:T; simpl.
    + destruct (adjacent_some _ _ _ _ A) as [[=]|[I L]].
      rewrite clear_offset_eq. simpl.
      rewrite (adjacent_filter p a (kfPosition this) None None L A) by discriminate.
      rewrite T, filter_filter.
      rewrite prune_limit_none; [reflexivity|].
      intros e He Le. apply filter_In in He as [_ He]. apply geQ_true in He. lra.
    + now rewrite clear_offset_eq, A, T.
  - simpl. now rewrite clear_offset_eq, A.
Qed.

(** X6 — A second call with the same offset prunes nothing more and returns the
    initial [maxLimit]: 0, or the offset itself in audio mode. *)
Theorem clear_offset_twice (this : JMuxmer) (p : Q) :
  let this' := snd (getSafeClearOffsetOfBuffer this p) in
  getSafeClearOffsetOfBuffer this' p = (initial_maxLimit this p, this').
Proof.
  cbn zeta. rewrite (clear_offset_eq this p).
  destruct (adjacent p (kfPosition this) None) as [a|] eqn:A.
  - destruct (truthyQ a) eqn:T; simpl.
    + destruct (adjacent_some _ _ _ _ A) as [[=]|[I L]].
      rewrite clear_offset_eq. simpl.
      rewrite (adjacent_filter p a (kfPosition this) None None L A) by discriminate.
      rewrite T, filter_filter.
      rewrite prune_limit_none; [reflexivity|].
      intros e He Le. apply filter_In in He as [_ He]. apply geQ_true in He. lra.
    + now rewrite clear_offset_eq, A, T.
  - simpl. now rewrite clear_offset_eq, A.
Qed.

(** X7 — A call only removes entries and keeps the order of those it leaves;
    it leaves every entry that is not below the offset, and when it removes
    one it leaves an entry below the offset. *)
Theorem clear_keeps_later_entries (this : JMuxmer) (p : Q) :
  let ledger := kfPosition this in
  let ledger' := kfPosition (snd (getSafeClearOffsetOfBuffer this p)) in
  (exists f, ledger' = filter f ledger)
  /\ filter (fun k => geQ k p) ledger' = filter (fun k => geQ k p) ledger
  /\ (ledger' = ledger \/ exists a, In a ledger' /\ a < p).
Proof.
  cbn zeta.
  assert (F : forall a l, a < p ->
                filter (fun k => geQ k p) (filter (fun k => geQ k a) l)
                = filter (fun k => geQ k p) l).
  { intros a l La. induction l as [|k l IH]; simpl; [reflexivity|].
    destruct (geQ k a) eqn:G; simpl; rewrite IH; [reflexivity|].
    apply geQ_false in G.
    assert (E : geQ k p = false) by (apply geQ_false; lra). now rewrite E. }
  destruct (clear_offset_spec this p) as [[E _]|(a & Ia & La & E & _)]; rewrite E.
  - split; [|split; [reflexivity | now left]].
    exists (fun _ => true). symmetry. apply filter_all.
  - split; [eauto|]. split; [now apply F|].
    right. exists a. split; [|exact La].
    apply filter_In. split; [exact Ia|]. apply geQ_true. lra.
Qed.

Lemma two_members {A} (x y : A) (l : list A) :
  In x l -> In y l -> x <> y -> (2 <= List.length l)%nat.
Proof.
  destruct l as [|a [|b l]]; simpl; intros Hx Hy N; try tauto; try lia.
  destruct Hx as [<-|[]], Hy as [<-|[]]. congruence.
Qed.

(** X26 — The offset in terms of the ledger entries.  In a mode other than
    audio, with a ledger of non-negative entries: if [k] is the greatest
    ledger entry with [k <= p] and [k'] the greatest ledger entry below [k]
    (in an ascending ledger, the entry just before [k]), the returned offset
    is at most [k'].  In audio mode the returned offset is [p] as long as at
    most one ledger entry lies below [p], which is so when the ledger is
    empty. *)
Theorem clear_offset_entry_bound (this : JMuxmer) (p : Q) :
  let ledger := kfPosition this in
  let r := fst (getSafeClearOffsetOfBuffer this p) in
  (is_audio this = false ->
   Forall (Qle 0) ledger ->
   forall k k', greatest_at_most ledger p k -> entry_before ledger k k' -> r <= k')
  /\ (is_audio this = true ->
      (List.length (filter (fun k => ltQ k p) ledger) <= 1)%nat ->
      r == p).
Proof.
  cbn zeta. split.
  - intros V NN k k' (Ik & Lk & Gk) (Ik' & Lk' & Gk').
    destruct (clear_offset_cases this p) as [E|(a & Ir & Ia & L1 & L2)].
    + rewrite E, (initial_maxLimit_video _ _ V).
      rewrite Forall_forall in NN. now apply NN.
    + apply Gk'; [exact Ir|].
      assert (a <= k) by (apply Gk; [exact Ia | lra]). lra.
  - intros A C.
    destruct (clear_offset_spec this p) as [[_ E]|(a & Ia & La & _ & E)].
    + rewrite E. now apply initial_maxLimit_audio.
    + rewrite E.
      destruct (prune_limit a (kfPosition this) (initial_maxLimit this p))
        as [E'|[I' L']].
      * rewrite E'. now apply initial_maxLimit_audio.
      * exfalso.
        set (m := snd (prune a (kfPosition this) (initial_maxLimit this p))) in *.
        assert (2 <= List.length (filter (fun k => ltQ k p) (kfPosition this)))%nat.
        { apply (two_members m a).
          - apply filter_In. split; [exact I'|]. apply ltQ_true. lra.
          - apply filter_In. split; [exact Ia|]. now apply ltQ_true.
          - intros EQ. rewrite EQ in L'. now apply Qlt_irrefl in L'. }
        lia.
Qed.

End LedgerMore.

Section LedgerExact.
Local Open Scope Q_scope.

Lemma adjacent_through (p k : Q) (l r : list Q) (acc : option Q) :
  Forall (fun e => e < p) l -> k < p ->
  adjacent p (l ++ k :: r) acc = adjacent p r (Some k).
Proof.
  intros F Hk. revert acc. induction F as [|x l Hx _ IH]; intros acc; simpl.
  - now rewrite (proj2 (geQ_false k p) Hk).
  - rewrite (proj2 (geQ_false x p) Hx). apply IH.
Qed.

Lemma adjacent_stop (p : Q) (r : list Q) (acc : option Q) :
  Forall (fun e => p <= e) r -> adjacent p r acc = acc.
Proof.
  intros [|x r' Hx _]; simpl; [reflexivity|].
  now rewrite (proj2 (geQ_true x p) Hx).
Qed.

Lemma prune_snd_app (a : Q) (l r : list Q) (m : Q) :
  snd (prune a (l ++ r) m) = snd (prune a r (snd (prune a l m))).
Proof.
  revert m. induction l as [|x l IH]; intros m; simpl; [reflexivity|].
  specialize (IH (if ltQ x a then x else m)).
  destruct (prune a (l ++ r) (if ltQ x a then x else m)) as [k1 m1].
  destruct (prune a l (if ltQ x a then x else m)) as [k2 m2].
  simpl in *. exact IH.
Qed.

Lemma filter_none_below (a : Q) (l : list Q) :
  Forall (fun e => e < a) l -> filter (fun k => geQ k a) l = [].
Proof.
  induction 1 as [|x l Hx _ IH]; simpl; [reflexivity|].
  now rewrite (proj2 (geQ_false x a) Hx).
Qed.

Lemma filter_all_above (a : Q) (l : list Q) :
  Forall (fun e => a <= e) l -> filter (fun k => geQ k a) l = l.
Proof.
  induction 1 as [|x l Hx _ IH]; simpl; [reflexivity|].
  now rewrite (proj2 (geQ_true x a) Hx), IH.
Qed.

Lemma sorted_app_inv (l1 l2 : list Q) (x : Q) :
  StronglySorted Qlt (l1 ++ x :: l2) ->
  Forall (fun e => e < x) l1 /\ StronglySorted Qlt (x :: l2).
Proof.
  induction l1 as [|y l1 IH]; simpl; intros S; [now split|].
  apply StronglySorted_inv in S as [S F]. destruct (IH S) as [F1 S1].
  split; [|exact S1]. constructor; [|exact F1].
  rewrite Forall_forall in F. apply F. apply in_or_app. right. now left.
Qed.

(** X8 — On a strictly ascending ledger [.. k' k ..] in which [k] is the last
    entry below the offset and is not 0, and every later entry is at or
    above the offset: the method returns [k'], the entry before [k], in
    every mode, and the ledger that remains starts at [k]. *)
Theorem clear_offset_exact
  (this : JMuxmer) (p : Q) (l1 l2 : list Q) (k' k : Q) :
  kfPosition this = l1 ++ k' :: k :: l2 ->
  ascending (kfPosition this) ->
  k < p -> Forall (fun e => p <= e) l2 -> ~ k == 0 ->
  getSafeClearOffsetOfBuffer this p
  = (k', set_kf this (kfCounter this) (k :: l2)).
Proof.
  intros E S Hk H2 Hz. rewrite clear_offset_eq, E. unfold ascending in S.
  rewrite E in S. destruct (sorted_app_inv _ _ _ S) as [F1 S1].
  apply StronglySorted_inv in S1 as [S2 Fk'].
  apply StronglySorted_inv in S2 as [_ Fk].
  inversion Fk' as [|? ? Hk'k _]; subst.
  assert (B1 : Forall (fun e => e < p) (l1 ++ [k'])).
  { apply Forall_app. split.
    - eapply Forall_impl; [|exact F1]. simpl. intros e He. lra.
    - repeat constructor. lra. }
  replace (l1 ++ k' :: k :: l2) with ((l1 ++ [k']) ++ k :: l2)
    by (now rewrite <- app_assoc).
  rewrite (adjacent_through p k _ l2 None B1 Hk), (adjacent_stop p l2 _ H2).
  assert (T : truthyQ k = true).
  { unfold truthyQ. destruct (Qeq_bool k 0) eqn:Q0; [|reflexivity].
    apply Qeq_bool_iff in Q0. contradiction. }
  rewrite T. f_equal.
  - rewrite prune_snd_app.
    rewrite (prune_limit_none k (k :: l2)).
    + rewrite prune_snd_app. simpl.
      now rewrite (proj2 (ltQ_true k' k) Hk'k).
    + intros e [<-|I] L; [now apply Qlt_irrefl in L|].
      rewrite Forall_forall in Fk. specialize (Fk _ I). lra.
  - f_equal. rewrite filter_app, filter_none_below.
    + simpl. rewrite (proj2 (geQ_true k k) (Qle_refl k)).
      rewrite filter_all_above; [reflexivity|].
      eapply Forall_impl; [|exact Fk]. simpl. intros e He. lra.
    + apply Forall_app. split.
      * eapply Forall_impl; [|exact F1]. simpl. intros e He. lra.
      * repeat constructor. exact Hk'k.
Qed.

End LedgerExact.

Section LedgerGrowth.
Context {P : Parsers}.
Local Open Scope Q_scope.

Lemma ledger_inv_weaken (lo fd : Z) (this : JMuxmer) :
  (lo <= fd)%Z -> ledger_inv lo this -> ledger_inv fd this.
Proof.
  intros H [C S B]. split; [exact C | exact S |].
  eapply Forall_impl; [|exact B]. simpl. intros e [E1 E2]. split; [exact E1|].
  assert (Qmake (kfCounter this * lo) 1000 <= Qmake (kfCounter this * fd) 1000)
    by (apply Qmake_le; nia).
  lra.
Qed.

Lemma growing_inv (frameDuration_ : Z) (ops : list Op) :
  forall (lo : Z) (this : JMuxmer),
    frameDuration this = frameDuration_ ->
    growing_fd frameDuration_ lo ops ->
    ledger_inv lo this ->
    exists hi, ledger_inv hi (fold_left apply_op ops this)
               /\ options (fold_left apply_op ops this) = options this.
Proof.
  induction ops as [|op ops IH]; intros lo this HF G I; [exists lo; auto|].
  cbn [growing_fd] in G. cbn [fold_left].
  destruct (chunk_fd frameDuration_ op) as [fd|] eqn:E.
  - destruct G as (L & Hfd & G).
    assert (HS : same_fd frameDuration_ fd op) by (unfold same_fd; now rewrite E).
    destruct (apply_op_inv frameDuration_ fd this op Hfd HF HS
                (ledger_inv_weaken lo fd this L I)) as (I' & F' & O').
    destruct (IH fd _ F' G I') as (hi & I'' & O'').
    exists hi. split; [exact I'' | congruence].
  - destruct op as [nalus d|offset]; [discriminate E|]. cbn [apply_op].
    destruct (clear_fixed this offset) as (EO & EF & _).
    destruct (IH lo (snd (getSafeClearOffsetOfBuffer this offset))
                ltac:(congruence) G (clear_inv lo this offset I)) as (hi & I'' & O'').
    exists hi. split; [exact I'' | congruence].
Qed.

(** X27 — The ledger stays in order as long as the per-frame duration does not
    shrink.  From a new muxer, along any sequence of video chunks and
    cleaning passes in which the per-frame duration of every video chunk is
    positive and at least that of the video chunk before it (as when no
    chunk carries a duration and [frameDuration] is positive), the ledger
    is strictly ascending after every operation.  A cleaning pass in a mode
    other than audio then leaves a strictly ascending ledger whose entries
    are all at least the offset it returns. *)
Theorem ledger_ascending_growing_fd (o : Options) (frameDuration_ : Z) (ops : list Op) :
  growing_fd frameDuration_ 0 ops ->
  let this := fold_left apply_op ops (new_JMuxmer o frameDuration_) in
  ascending (kfPosition this)
  /\ (forall p,
        (mode o =? "audio")%string = false ->
        let r := fst (getSafeClearOffsetOfBuffer this p) in
        let this' := snd (getSafeClearOffsetOfBuffer this p) in
        ascending (kfPosition this') /\ Forall (fun e => r <= e) (kfPosition this')).
Proof.
  intros G. cbn zeta.
  assert (I0 : ledger_inv 0 (new_JMuxmer o frameDuration_)).
  { split; simpl; [lia | constructor | constructor]. }
  destruct (growing_inv frameDuration_ ops 0 (new_JMuxmer o frameDuration_)
              eq_refl G I0) as (hi & [C S B] & O).
  set (this := fold_left apply_op ops (new_JMuxmer o frameDuration_)) in *.
  split; [exact S|].
  intros p V.
  split; [now apply clear_ascending|].
  assert (V' : is_audio this = false) by (unfold is_audio; now rewrite O).
  rewrite Forall_forall in B.
  destruct (clear_offset_spec this p) as [[-> E]|(a & Ia & La & -> & E)].
  - rewrite E, (initial_maxLimit_video _ _ V').
    apply Forall_forall. intros e He. destruct (B _ He). lra.
  - apply Forall_forall. intros e He. apply filter_In in He as [He Ge].
    apply geQ_true in Ge. rewrite E.
    destruct (prune_limit a (kfPosition this) (initial_maxLimit this p))
      as [E'|[I' L']].
    + rewrite E', (initial_maxLimit_video _ _ V'). destruct (B _ He). lra.
    + lra.
Qed.

End LedgerGrowth.

(** ** More on [feed], [onBuffer] and [onBufferError] *)

Section MethodsMore.
Context {P : Parsers}.

Lemma length_pos_nil {A} (l : list A) :
  (0 <? List.length l)%nat = match l with [] => false | _ => true end.
Proof. now destruct l. Qed.

(** [feed] on a live muxer, as one equation. *)
Lemma feed_eq (this : JMuxmer) (data : Data) :
  remuxController this = true ->
  let d := chunk_duration data in
  let vs := video_slices data in
  let this1 := match vs with [] => this | _ => snd (getVideoFrames this vs d) end in
  let vf := match vs with [] => [] | _ => fst (getVideoFrames this vs d) end in
  let af := getAudioFrames this1 (audio_slices data) d in
  feed (Some data) this
  = Ok tt (call (match vs, audio_slices data with
                 | [], [] => debug_error feed_error
                 | _, _ => rc_remux vf af
                 end) this1).
Proof.
  intros A. cbn zeta. unfold feed, bind, get, video_slices, audio_slices. rewrite A.
  simpl. fold (chunk_duration data).
  destruct (video data) as [v|]; [rewrite length_pos_nil|].
  - destruct (extractNALu v) as [|n ns] eqn:EV.
    + unfold ret. destruct (audio data) as [a|]; [rewrite length_pos_nil|];
        [destruct (extractAAC a)|]; reflexivity.
    + destruct (getVideoFrames this (n :: ns) (chunk_duration data)) as [fr this1].
      simpl. destruct (audio data) as [a|]; [rewrite length_pos_nil|];
        [destruct (extractAAC a)|]; reflexivity.
  - unfold ret. destruct (audio data) as [a|]; [rewrite length_pos_nil|];
      [destruct (extractAAC a)|]; reflexivity.
Qed.

(** X9 — A chunk in which a field yields a unit is remuxed: [feed] on a live
    muxer returns after exactly one call of [remux], made last, and logs no
    error; the video frames it passes are those of [getVideoFrames] (none
    if the video yields no unit), the audio frames those of
    [getAudioFrames], both with the duration of the chunk; the counter has
    advanced by the number of video frames passed. *)
Theorem feed_remuxes_once (this : JMuxmer) (data : Data) :
  remuxController this = true ->
  video_slices data <> [] \/ audio_slices data <> [] ->
  let d := chunk_duration data in
  let vf := fst (getVideoFrames this (video_slices data) d) in
  exists this1 logged,
    feed (Some data) this
    = Ok tt (call (rc_remux vf (getAudioFrames this1 (audio_slices data) d)) this1)
    /\ calls this1 = calls this ++ logged
    /\ existsb is_remux logged = false
    /\ Forall (fun c => c <> debug_error feed_error) logged
    /\ kfCounter this1 = kfCounter this + Z.of_nat (List.length vf).
Proof.
  intros A N. cbn zeta. rewrite (feed_eq this data A). cbn zeta.
  destruct (video_slices data) as [|n ns] eqn:EV.
  - exists this, []. destruct (audio_slices data) as [|a l]; [destruct N; congruence|].
    repeat split; simpl; try (now rewrite ?app_nil_r); try constructor. lia.
  - set (vs := n :: ns) in *.
    exists (snd (getVideoFrames this vs (chunk_duration data))),
           [debug_log_frames
              (Z.of_nat (List.length (fst (getVideoFrames this vs (chunk_duration data)))))].
    split; [reflexivity|].
    pose proof (getVideoFrames_counter this vs (chunk_duration data)) as C.
    rewrite getVideoFrames_state at 1. simpl. rewrite count_frames_calls.
    repeat split; try assumption. repeat constructor. discriminate.
Qed.

(** X10 — Only video units move the counter and the ledger: a call of [feed]
    whose video field is absent or yields no unit leaves both as they
    were, whatever else the chunk holds and whatever the state. *)
Theorem feed_without_video_keeps_ledger (this : JMuxmer) (data : Data) :
  video_slices data = [] ->
  kfCounter (state_of (feed (Some data) this)) = kfCounter this
  /\ kfPosition (state_of (feed (Some data) this)) = kfPosition this.
Proof.
  intros V. destruct (remuxController this) eqn:A.
  - rewrite (feed_eq this data A). cbn zeta. rewrite V. now simpl.
  - unfold feed, bind, get. rewrite A. now simpl.
Qed.

Lemma fold_call_fixed {A} (l : list A) (c : A -> Call) (this : JMuxmer) :
  let this' := fold_left (fun s x => call (c x) s) l this in
  kfCounter this' = kfCounter this
  /\ kfPosition this' = kfPosition this
  /\ bufferControllers this' = bufferControllers this.
Proof.
  cbn zeta. revert this. induction l as [|x l IH]; intros this; simpl; [auto|].
  destruct (IH (call (c x) this)) as (H1 & H2 & H3). auto.
Qed.

Lemma releaseBuffer_eq (this : JMuxmer) :
  releaseBuffer this
  = Ok tt (fold_left (fun s k => call (bc_doAppend k) s) (controller_keys this) this).
Proof.
  unfold releaseBuffer, bind, get, controller_keys. cbv beta iota.
  destruct (bufferControllers this) as [keys|]; [apply for_each_calls | reflexivity].
Qed.

Lemma onBuffer_spec (this : JMuxmer) (type : string) (p : bytes) :
  let keys := controller_keys this in
  if inherited_key type this
  then onBuffer type p this = Throw "TypeError" this
  else exists this',
      onBuffer type p this = Ok tt this'
      /\ calls this'
         = calls this
           ++ (if has_key type keys then [bc_feed type p] else [])
           ++ map bc_doAppend keys
      /\ kfCounter this' = kfCounter this
      /\ kfPosition this' = kfPosition this
      /\ bufferControllers this' = bufferControllers this.
Proof.
  cbn zeta. unfold inherited_key, controller_keys, onBuffer, bind, get. cbv beta iota.
  destruct (bufferControllers this) as [keys|] eqn:B;
    [destruct (has_key type keys); [|destruct (has_key type Object_prototype)]|];
    unfold update, throw, ret; cbv beta iota; simpl negb; simpl andb; cbv iota;
    try reflexivity; rewrite releaseBuffer_eq; unfold controller_keys;
    simpl bufferControllers; rewrite B;
    eexists; (split; [reflexivity|]); rewrite fold_call_calls; simpl;
    rewrite <- ?app_assoc, ?app_nil_r; (split; [reflexivity|]).
  - destruct (fold_call_fixed keys bc_doAppend (call (bc_feed type p) this))
      as (H1 & H2 & H3). simpl in *. rewrite H1, H2, H3. auto.
  - destruct (fold_call_fixed keys bc_doAppend this) as (H1 & H2 & H3).
    rewrite H1, H2, H3. auto.
  - auto.
Qed.

(** X12 — [onBuffer] hands the payload to the controller of its track if
    there is one, and drops it otherwise; then it asks every controller, in
    the order of the keys, to append.  The one exception is a type that is
    no track but names a member that the table of controllers inherits from
    [Object.prototype], such as [toString]: then the handler throws a
    [TypeError] and makes no call at all, the appends included. *)
Theorem onBuffer_calls_made (this : JMuxmer) (type : string) (p : bytes) :
  let keys := controller_keys this in
  if inherited_key type this
  then onBuffer type p this = Throw "TypeError" this
  else exists this',
      onBuffer type p this = Ok tt this'
      /\ calls this'
         = calls this
           ++ (if has_key type keys then [bc_feed type p] else [])
           ++ map bc_doAppend keys
      /\ kfCounter this' = kfCounter this
      /\ kfPosition this' = kfPosition this
      /\ bufferControllers this' = bufferControllers this.
Proof.
  cbn zeta. unfold inherited_key, controller_keys, onBuffer, bind, get. cbv beta iota.
  destruct (bufferControllers this) as [keys|] eqn:B;
    [destruct (has_key type keys); [|destruct (has_key type Object_prototype)]|];
    unfold update, throw, ret; cbv beta iota; simpl negb; simpl andb; cbv iota;
    try reflexivity; rewrite releaseBuffer_eq; unfold controller_keys;
    simpl bufferControllers; rewrite B;
    eexists; (split; [reflexivity|]); rewrite fold_call_calls; simpl;
    rewrite <- ?app_assoc, ?app_nil_r; (split; [reflexivity|]).
  - destruct (fold_call_fixed keys bc_doAppend (call (bc_feed type p) this))
      as (H1 & H2 & H3). simpl in *. rewrite H1, H2, H3. auto.
  - destruct (fold_call_fixed keys bc_doAppend this) as (H1 & H2 & H3).
    rewrite H1, H2, H3. auto.
  - auto.
Qed.

Lemma onBufferError_fatal (this : JMuxmer) (type name : string) :
  (name =? "QuotaExceeded")%string = false ->
  let removes :=
    (0 <? List.length (ms_sourceBuffers this))%nat && has_key type (sourceBuffers this) in
  let attached :=
    if removes then remove string_dec type (ms_sourceBuffers this)
    else ms_sourceBuffers this in
  let this' :=
    if removes
    then set_ms_sourceBuffers attached (call (ms_removeSourceBuffer type) this)
    else this in
  dispatch (ev_error type name) this
  = Ok tt (if (List.length attached =? 0)%nat then call ms_endOfStream this' else this').
Proof.
  intros Hn. cbn zeta. simpl.
  unfold onBufferError, bind, get, when, update, ret. rewrite Hn.
  destruct ((0 <? List.length (ms_sourceBuffers this))%nat
            && has_key type (sourceBuffers this)); simpl;
    match goal with
    | |- context [(List.length ?l =? 0)%nat] => destruct (List.length l =? 0)%nat
    end; reflexivity.
Qed.

Lemma has_key_In (k : string) (l : list string) : has_key k l = true <-> In k l.
Proof.
  unfold has_key. rewrite existsb_exists. split.
  - intros (x & I & E). apply String.eqb_eq in E. now subst.
  - intros I. exists k. split; [exact I | apply String.eqb_refl].
Qed.

Lemma fatal_errors_calls (name : string) (keys : list string) (this : JMuxmer) :
  (name =? "QuotaExceeded")%string = false ->
  NoDup keys -> keys <> [] ->
  ms_sourceBuffers this = keys ->
  (forall k, In k keys -> In k (sourceBuffers this)) ->
  calls (run (map (fun type => ev_error type name) keys) this)
  = calls this ++ map ms_removeSourceBuffer keys ++ [ms_endOfStream]
  /\ ms_sourceBuffers (run (map (fun type => ev_error type name) keys) this) = [].
Proof.
  intros Hn. revert this.
  induction keys as [|k keys IH]; intros this ND NE A O; [congruence|].
  simpl map. rewrite run_cons, (onBufferError_fatal _ _ _ Hn). cbn zeta. rewrite A.
  assert (HK : has_key k (sourceBuffers this) = true)
    by (apply has_key_In, O; now left).
  rewrite HK. simpl andb. cbv iota.
  inversion ND as [|? ? NI ND']; subst.
  assert (R : remove string_dec k (k :: keys) = keys).
  { simpl. destruct (string_dec k k); [|congruence]. now apply notin_remove. }
  rewrite R. destruct keys as [|k' keys'].
  - simpl. split; [now rewrite <- app_assoc | reflexivity].
  - simpl Nat.eqb. cbv iota. simpl state_of.
    destruct (IH (set_ms_sourceBuffers (k' :: keys')
                    (call (ms_removeSourceBuffer k) this)) ND' ltac:(discriminate)
                 eq_refl) as (C & M).
    { intros x Ix. simpl. apply O. now right. }
    split; [|exact M]. rewrite C. simpl. now rewrite <- app_assoc.
Qed.

(** X13 — When every attached source buffer reports an error other than
    [QuotaExceeded], one after the other, each is removed from the media
    source in turn and the stream is ended exactly once, after the last
    removal. *)
Theorem all_tracks_fail (name : string) (keys : list string) (this : JMuxmer) :
  (name =? "QuotaExceeded")%string = false ->
  NoDup keys -> keys <> [] ->
  ms_sourceBuffers this = keys ->
  sourceBuffers this = keys ->
  calls (run (map (fun type => ev_error type name) keys) this)
  = calls this ++ map ms_removeSourceBuffer keys ++ [ms_endOfStream]
  /\ ms_sourceBuffers (run (map (fun type => ev_error type name) keys) this) = [].
Proof.
  intros Hn ND NE A O. apply fatal_errors_calls; auto.
  intros k I. now rewrite O.
Qed.

Lemma remuxed_frames_app (l l' : list Call) :
  remuxed_frames (l ++ l') = remuxed_frames l + remuxed_frames l'.
Proof.
  induction l as [|c l IH]; simpl; [reflexivity|].
  destruct c; rewrite ?IH; lia.
Qed.

Lemma remuxed_frames_none (l : list Call) :
  existsb is_remux l = false -> remuxed_frames l = 0.
Proof.
  induction l as [|c l IH]; simpl; [reflexivity|].
  destruct c; simpl; auto; discriminate.
Qed.

Lemma getVideoFrames_logged (this : JMuxmer) (nalus : list bytes) (duration_ : Z) :
  calls (snd (getVideoFrames this nalus duration_))
  = calls this
    ++ [debug_log_frames
          (Z.of_nat (List.length (fst (getVideoFrames this nalus duration_))))].
Proof. rewrite getVideoFrames_state at 1. simpl. now rewrite count_frames_calls. Qed.

Lemma no_remux_in_appends (keys : list string) :
  existsb is_remux (map bc_doAppend keys) = false.
Proof. induction keys as [|k keys IH]; simpl; auto. Qed.

Lemma dispatch_counter (e : Event) (this : JMuxmer) :
  kfCounter this = remuxed_frames (calls this) ->
  kfCounter (state_of (dispatch e this))
  = remuxed_frames (calls (state_of (dispatch e this))).
Proof.
  intros I. destruct e as [t pl|t n|q|d]; simpl dispatch.
  - pose proof (onBuffer_spec this t pl) as S. cbn zeta in S.
    destruct (inherited_key t this); [rewrite S; exact I|].
    destruct S as (this' & E & C & K & _).
    rewrite E. simpl. rewrite K, C, !remuxed_frames_app, I.
    rewrite (remuxed_frames_none
               (if has_key t (controller_keys this) then [bc_feed t pl] else []))
      by (destruct (has_key t (controller_keys this)); reflexivity).
    rewrite (remuxed_frames_none (map bc_doAppend (controller_keys this)))
      by apply no_remux_in_appends.
    lia.
  - destruct (n =? "QuotaExceeded")%string eqn:Q.
    + unfold onBufferError, bind, get, update, throw. rewrite Q.
      destruct (bufferControllers this) as [keys|]; [destruct (has_key t keys)|];
        simpl; rewrite ?remuxed_frames_app; simpl; lia.
    + pose proof (onBufferError_fatal this t n Q) as E. cbn zeta in E.
      simpl dispatch in E. rewrite E.
      destruct ((0 <? List.length (ms_sourceBuffers this))%nat
                && has_key t (sourceBuffers this)); simpl;
        match goal with
        | |- context [(List.length ?l =? 0)%nat] => destruct (List.length l =? 0)%nat
        end; simpl; rewrite ?remuxed_frames_app; simpl; lia.
  - simpl. exact I.
  - destruct d as [d|]; [|exact I].
    destruct (remuxController this) eqn:A.
    + rewrite (feed_eq this d A). cbn zeta. simpl state_of.
      destruct (video_slices d) as [|v vs] eqn:V.
      * simpl. rewrite remuxed_frames_app, I.
        destruct (audio_slices d); simpl; lia.
      * simpl. rewrite getVideoFrames_counter, getVideoFrames_logged.
        rewrite !remuxed_frames_app, I. simpl. lia.
    + unfold feed, bind, get. rewrite A. simpl. exact I.
Qed.

(** X11 — The counter is the number of video frames handed to the remuxer: from
    a new muxer, through any sequence of chunks fed, segments received,
    buffer errors and moves of the playback position, [kfCounter] equals the
    total number of video frames passed in calls of [remux]. *)
Theorem counter_matches_remuxed (o : Options) (frameDuration_ : Z) (es : list Event) :
  let this := run es (new_JMuxmer o frameDuration_) in
  kfCounter this = remuxed_frames (calls this).
Proof.
  cbn zeta.
  assert (G : forall this, kfCounter this = remuxed_frames (calls this) ->
                kfCounter (run es this) = remuxed_frames (calls (run es this))).
  { induction es as [|e es IH]; intros this I; [exact I|].
    rewrite run_cons. apply IH. now apply dispatch_counter. }
  apply G. reflexivity.
Qed.

End MethodsMore.

(** ** The constructor and the cleaning timer *)

Section TimerMore.
Context {P : Parsers}.

Lemma frameDuration_of_spec (fps : option Z) :
  let rate := match fps with
              | Some f => if f =? 0 then 30 else f
              | None => 30
              end in
  (1 <= rate <= 1000 ->
   frameDuration_of fps = 1000 / rate /\ 1 <= frameDuration_of fps <= 1000)
  /\ (1000 < rate -> frameDuration_of fps = 0).
Proof.
  cbn zeta. unfold frameDuration_of, truthy, div_or0.
  set (rate := match fps with Some f => if f =? 0 then 30 else f | None => 30 end).
  assert (E : match fps with
              | Some f => if negb (f =? 0) then f else 30
              | None => 30
              end = rate).
  { unfold rate. destruct fps as [f|]; [|reflexivity]. now destruct (f =? 0). }
  rewrite E. split; intros H.
  - rewrite Z.quot_div_nonneg by lia.
    assert (1 <= 1000 / rate <= 1000).
    { split.
      - apply Z.div_le_lower_bound; lia.
      - apply Z.div_le_upper_bound; lia. }
    rewrite to_int32_small by lia. auto.
  - rewrite Z.quot_div_nonneg by lia. rewrite Z.div_small by lia. reflexivity.
Qed.

(** X14 — The frame duration that the constructor derives from an integer frame
    rate (30 when the rate is absent or 0): for a rate between 1 and 1000
    it is the integer quotient of 1000 by the rate, hence between 1 and
    1000; above 1000 it is 0. *)
Theorem frameDuration_of_rate (fps : option Z) :
  let rate := match fps with
              | Some f => if f =? 0 then 30 else f
              | None => 30
              end in
  (1 <= rate <= 1000 ->
   frameDuration_of fps = 1000 / rate /\ 1 <= frameDuration_of fps <= 1000)
  /\ (1000 < rate -> frameDuration_of fps = 0).
Proof.
  cbn zeta. unfold frameDuration_of, truthy, div_or0.
  set (rate := match fps with Some f => if f =? 0 then 30 else f | None => 30 end).
  assert (E : match fps with
              | Some f => if negb (f =? 0) then f else 30
              | None => 30
              end = rate).
  { unfold rate. destruct fps as [f|]; [|reflexivity]. now destruct (f =? 0). }
  rewrite E. split; intros H.
  - rewrite Z.quot_div_nonneg by lia.
    assert (1 <= 1000 / rate <= 1000).
    { split.
      - apply Z.div_le_lower_bound; lia.
      - apply Z.div_le_upper_bound; lia. }
    rewrite to_int32_small by lia. auto.
  - rewrite Z.quot_div_nonneg by lia. rewrite Z.div_small by lia. reflexivity.
Qed.

(** X15 — A muxer built with a frame rate between 1 and 1000 (or none) and fed
    only chunks without a duration keeps its ledger strictly ascending,
    through any sequence of video chunks and cleaning passes. *)
Theorem durationless_ledger_ascending (u : UserOptions) (now : Z) (ops : list Op) :
  match u_fps u with Some f => f = 0 \/ 1 <= f <= 1000 | None => True end ->
  Forall (fun op => match op with
                    | op_video _ duration_ => duration_ = 0
                    | op_clear _ => True
                    end) ops ->
  ascending (kfPosition (fold_left apply_op ops (muxer (constructor u now)))).
Proof.
  intros HF HO. simpl muxer.
  set (o := mkOptions _ _).
  assert (Hfd : 0 < frameDuration_of (u_fps u)).
  { destruct (frameDuration_of_spec (u_fps u)) as [H _].
    destruct (u_fps u) as [f|]; [|destruct H; lia].
    destruct HF as [->|HF]; [destruct H; simpl; lia|].
    destruct (Z.eqb_spec f 0); [lia|]. destruct H; lia. }
  assert (HS : Forall (same_fd (frameDuration_of (u_fps u)) (frameDuration_of (u_fps u)))
                      ops).
  { eapply Forall_impl; [|exact HO]. intros [n d|q]; simpl; [|auto].
    intros ->. reflexivity. }
  assert (I0 : ledger_inv (frameDuration_of (u_fps u))
                          (new_JMuxmer o (frameDuration_of (u_fps u)))).
  { split; simpl; [lia | constructor | constructor]. }
  destruct (ops_inv (frameDuration_of (u_fps u)) (frameDuration_of (u_fps u)) ops
              (new_JMuxmer o (frameDuration_of (u_fps u))) Hfd eq_refl HS I0)
    as ([_ S _] & _).
  exact S.
Qed.

(** *** A cleaning pass *)

Lemma clear_offset_call (c : Call) (this : JMuxmer) (p : Q) :
  getSafeClearOffsetOfBuffer (call c this) p
  = (fst (getSafeClearOffsetOfBuffer this p),
     call c (snd (getSafeClearOffsetOfBuffer this p))).
Proof.
  unfold getSafeClearOffsetOfBuffer, initial_maxLimit, is_audio. simpl.
  destruct (adjacent p (kfPosition this) None) as [a|]; [|reflexivity].
  destruct (truthyQ a); [|reflexivity].
  now destruct (prune a (kfPosition this) _).
Qed.

Lemma clear_currentTime (this : JMuxmer) (p : Q) :
  currentTime (snd (getSafeClearOffsetOfBuffer this p)) = currentTime this.
Proof.
  rewrite clear_offset_eq.
  destruct (adjacent p (kfPosition this) None) as [a|]; [|reflexivity].
  now destruct (truthyQ a).
Qed.

Lemma clear_calls (this : JMuxmer) (p : Q) :
  calls (snd (getSafeClearOffsetOfBuffer this p)) = calls this.
Proof.
  rewrite clear_offset_eq.
  destruct (adjacent p (kfPosition this) None) as [a|]; [|reflexivity].
  now destruct (truthyQ a).
Qed.

Lemma clean_track_eq (this : JMuxmer) (type : string) :
  clean_track this type
  = call (bc_initCleanup type (fst (getSafeClearOffsetOfBuffer this (currentTime this))))
         (snd (getSafeClearOffsetOfBuffer this (currentTime this))).
Proof.
  unfold clean_track. now destruct (getSafeClearOffsetOfBuffer this (currentTime this)).
Qed.

(** Once a call at the position has returned, every further turn of the
    loop passes the initial [maxLimit] and changes only the calls. *)
Lemma clean_tracks_stable (keys : list string) (this : JMuxmer) (i : Q) :
  getSafeClearOffsetOfBuffer this (currentTime this) = (i, this) ->
  let this' := fold_left clean_track keys this in
  calls this' = calls this ++ map (fun type => bc_initCleanup type i) keys
  /\ kfPosition this' = kfPosition this.
Proof.
  cbn zeta. revert this. induction keys as [|k keys IH]; intros this S; simpl.
  - now rewrite app_nil_r.
  - rewrite clean_track_eq, S. simpl fst. simpl snd.
    destruct (IH (call (bc_initCleanup k i) this)) as (C & K).
    { simpl currentTime. rewrite clear_offset_call, S. reflexivity. }
    rewrite C, K. simpl. now rewrite <- app_assoc.
Qed.

(** X16 — A cleaning pass over the controllers [k :: keys]: the first controller
    is asked to clean up to the offset that [getSafeClearOffsetOfBuffer]
    computes from the ledger; the ledger being pruned by then, every other
    controller is asked to clean up to the initial [maxLimit] only (0
    outside audio mode).  The time of the pass is recorded. *)
Theorem cleaning_pass (p : Player) (now now' : Z) (k : string) (keys : list string) :
  opt_clearBuffer (options (muxer p)) = true ->
  10000 < now - lastCleaningTime p ->
  bufferControllers (muxer p) = Some (k :: keys) ->
  let this := muxer p in
  let t := currentTime this in
  let p' := onInterval now now' p in
  calls (muxer p')
  = calls this
    ++ bc_initCleanup k (fst (getSafeClearOffsetOfBuffer this t))
    :: map (fun type => bc_initCleanup type (initial_maxLimit this t)) keys
  /\ kfPosition (muxer p') = kfPosition (snd (getSafeClearOffsetOfBuffer this t))
  /\ lastCleaningTime p' = now'.
Proof.
  intros HC HT HB. cbn zeta. unfold onInterval, clearBuffer, controller_keys.
  rewrite HB, HC. destruct (Z.ltb_spec 10000 (now - lastCleaningTime p)); [|lia].
  simpl. rewrite clean_track_eq.
  pose proof (clear_offset_again (muxer p) (currentTime (muxer p))) as T.
  cbn zeta in T. pose proof (clear_currentTime (muxer p) (currentTime (muxer p))) as CT.
  pose proof (clear_calls (muxer p) (currentTime (muxer p))) as CC.
  destruct (getSafeClearOffsetOfBuffer (muxer p) (currentTime (muxer p)))
    as [r this1]. simpl in *.
  destruct (clean_tracks_stable keys (call (bc_initCleanup k r) this1)
              (initial_maxLimit (muxer p) (currentTime (muxer p)))) as (C & K).
  { simpl currentTime. rewrite CT, clear_offset_call, T. reflexivity. }
  rewrite C, K. simpl. rewrite <- app_assoc, CC. auto.
Qed.

Lemma clear_offset_le (this : JMuxmer) (p : Q) :
  (0 <= p)%Q -> (fst (getSafeClearOffsetOfBuffer this p) <= p)%Q.
Proof.
  intros Hp. destruct (clear_offset_cases this p) as [E|(a & _ & _ & L1 & L2)].
  - rewrite E. now apply initial_maxLimit_le.
  - lra.
Qed.

Lemma clean_tracks_within (keys : list string) (this : JMuxmer) :
  (0 <= currentTime this)%Q ->
  exists limits,
    calls (fold_left clean_track keys this)
    = calls this ++ map (fun kl => bc_initCleanup (fst kl) (snd kl)) (combine keys limits)
    /\ List.length limits = List.length keys
    /\ Forall (fun l => (l <= currentTime this)%Q) limits.
Proof.
  intros H0. revert this H0. induction keys as [|k keys IH]; intros this H0; simpl.
  - exists []. simpl. rewrite app_nil_r. auto.
  - rewrite clean_track_eq.
    pose proof (clear_offset_le this (currentTime this) H0) as B.
    pose proof (clear_currentTime this (currentTime this)) as CT.
    pose proof (clear_calls this (currentTime this)) as CC.
    destruct (getSafeClearOffsetOfBuffer this (currentTime this)) as [r this1].
    simpl in *.
    destruct (IH (call (bc_initCleanup k r) this1)) as (ls & C & L & F).
    { simpl. now rewrite CT. }
    exists (r :: ls). simpl in *. rewrite C, <- app_assoc, CC. simpl.
    rewrite CT in F. split; [reflexivity|]. split; [now rewrite L|].
    constructor; [exact B | exact F].
Qed.

(** X17 — Whatever the ledger, a timer tick at a playback position [t >= 0] only
    makes [initCleanup] calls, one per controller in the order of the keys
    when it runs a pass and none otherwise, and none of them asks to clean
    beyond [t]. *)
Theorem tick_cleans_within_position (p : Player) (now now' : Z) :
  (0 <= currentTime (muxer p))%Q ->
  exists limits,
    calls (muxer (onInterval now now' p))
    = calls (muxer p)
      ++ map (fun kl => bc_initCleanup (fst kl) (snd kl))
             (combine (controller_keys (muxer p)) limits)
    /\ (List.length limits
        = if cleans now p then List.length (controller_keys (muxer p)) else O)
    /\ Forall (fun l => (l <= currentTime (muxer p))%Q) limits.
Proof.
  intros H0. unfold onInterval, cleans, clearBuffer, controller_keys.
  destruct (bufferControllers (muxer p)) as [keys|] eqn:B.
  - destruct (opt_clearBuffer (options (muxer p)) && (10000 <? now - lastCleaningTime p)).
    + simpl. rewrite ?B.
      destruct (clean_tracks_within keys (muxer p) H0) as (ls & C & L & F).
      exists ls. auto.
    + exists []. rewrite combine_nil. simpl. rewrite app_nil_r. auto.
  - exists []. simpl. rewrite app_nil_r. auto.
Qed.

Lemma tick_cases (now now' : Z) (p : Player) :
  if cleans now p
  then lastCleaningTime (onInterval now now' p) = now'
       /\ lastCleaningTime p + 10000 < now
  else onInterval now now' p = p.
Proof.
  unfold cleans, onInterval, clearBuffer.
  destruct (bufferControllers (muxer p)); [|reflexivity].
  destruct (opt_clearBuffer (options (muxer p))); simpl; [|reflexivity].
  destruct (Z.ltb_spec 10000 (now - lastCleaningTime p)); simpl; [|reflexivity].
  split; [reflexivity | lia].
Qed.

(** X18 — Over any sequence of timer ticks whose two clock readings do not go
    backwards, two cleaning passes are always more than 10000 ms apart, and
    the first comes more than 10000 ms after the last cleaning time the
    player started with. *)
Theorem passes_apart (ts : list (Z * Z)) (p : Player) :
  Forall (fun t => fst t <= snd t) ts ->
  StronglySorted (fun a b => a + 10000 < b) (snd (ticks ts p))
  /\ Forall (fun a => lastCleaningTime p + 10000 < a) (snd (ticks ts p)).
Proof.
  intros H. revert p. induction H as [|[now now'] ts Ht _ IH]; intros p; simpl.
  - split; constructor.
  - pose proof (tick_cases now now' p) as T.
    destruct (IH (onInterval now now' p)) as (S & F).
    destruct (ticks ts (onInterval now now' p)) as [p' passes]. simpl in *.
    destruct (cleans now p).
    + destruct T as (L & G). rewrite L in F. split.
      * constructor; [exact S|].
        eapply Forall_impl; [|exact F]. simpl. intros a Ha. lia.
      * constructor; [exact G|].
        eapply Forall_impl; [|exact F]. simpl. intros a Ha. lia.
    + rewrite T in F. auto.
Qed.

End TimerMore.

(** ** Source buffers, readiness and teardown *)

Section LifecycleMore.
Context {P : Parsers}.
Variable supported : string -> bool.

Lemma add_key_new (k : string) (ks : list string) :
  ~ In k ks -> add_key k ks = ks ++ [k].
Proof.
  intros N. unfold add_key. destruct (has_key k ks) eqn:E; [|reflexivity].
  apply has_key_In in E. contradiction.
Qed.

Lemma create_tracks_spec (tracks : list (string * string)) (p : Player) (ks : list string) :
  bufferControllers (muxer p) = Some ks ->
  sourceBuffers (muxer p) = ks ->
  NoDup (ks ++ map fst tracks) ->
  let pre := supported_prefix supported tracks in
  let p' := create_tracks supported tracks p in
  bufferControllers (muxer p') = Some (ks ++ map fst pre)
  /\ sourceBuffers (muxer p') = ks ++ map fst pre
  /\ ms_sourceBuffers (muxer p') = ms_sourceBuffers (muxer p) ++ map fst pre
  /\ lifecycle p'
     = lifecycle p ++ flat_map buffer_calls pre
       ++ (if all_supported supported tracks then []
           else [lc_error "Browser does not support codec"])
  /\ calls (muxer p') = calls (muxer p)
  /\ remuxController (muxer p') = remuxController (muxer p)
  /\ mseReady p' = mseReady p
  /\ onReady p' = onReady p
  /\ mediaSource p' = mediaSource p.
Proof.
  cbn zeta. revert p ks. induction tracks as [|[t c] tracks IH]; intros p ks B S ND.
  - simpl. rewrite !app_nil_r. auto 10.
  - simpl. destruct (supported (mime_of t c)) eqn:E; simpl.
    + assert (NI : ~ In t ks).
      { apply NoDup_remove_2 in ND. intros I. apply ND. apply in_or_app. now left. }
      match goal with
      | |- context [create_tracks supported tracks ?q] =>
          destruct (IH q (ks ++ [t])) as (H1 & H2 & H3 & H4 & H5 & H6 & H7 & H8 & H9)
      end.
      * simpl. unfold controller_keys. simpl. rewrite B. now rewrite add_key_new.
      * simpl. rewrite S. now apply add_key_new.
      * rewrite <- app_assoc. exact ND.
      * rewrite H1, H2, H3, H4, H5, H6, H7, H8, H9. simpl.
        rewrite <- !app_assoc. simpl. auto 10.
    + rewrite !app_nil_r. auto 10.
Qed.

(** X19 — When the media source is open, the remuxer ready and no buffer
    created yet, [createBuffer] creates a source buffer and a controller
    for every track up to the first whose codec is not supported, in the
    order of the tracks, and for no other; if it met an unsupported codec
    it logs an error last. *)
Theorem createBuffer_result (tracks : list (string * string)) (p : Player) :
  mseReady p = true ->
  remuxController (muxer p) = true ->
  bufferControllers (muxer p) = None ->
  sourceBuffers (muxer p) = [] ->
  NoDup (map fst tracks) ->
  let pre := supported_prefix supported tracks in
  let p' := createBuffer supported true tracks p in
  bufferControllers (muxer p') = Some (map fst pre)
  /\ sourceBuffers (muxer p') = map fst pre
  /\ ms_sourceBuffers (muxer p') = ms_sourceBuffers (muxer p) ++ map fst pre
  /\ lifecycle p'
     = lifecycle p ++ flat_map buffer_calls pre
       ++ (if all_supported supported tracks then []
           else [lc_error "Browser does not support codec"]).
Proof.
  intros M R B S ND. cbn zeta. unfold createBuffer. rewrite M, R, B. simpl.
  destruct (create_tracks_spec tracks
              (with_muxer (set_bufferControllers (Some []) (muxer p)) p) [])
    as (H1 & H2 & H3 & H4 & _); auto.
Qed.



(** *** [onReady] *)



Lemma fold_lcall (c : string -> LCall) (keys : list string) (p : Player) :
  fold_left (fun p type => lcall (c type) p) keys p
  = mkPlayer (muxer p) (lastCleaningTime p) (mseReady p) (mediaSource p) (interval p)
             (onReady p) (lifecycle p ++ map c keys).
Proof.
  revert p. induction keys as [|k keys IH]; intros p; simpl.
  - rewrite app_nil_r. now destruct p.
  - rewrite IH. simpl. now rewrite <- app_assoc.
Qed.

(** [destroy()] as one equation. *)
Lemma destroy_eq (eos : option string) (p : Player) :
  destroy eos p
  = mkPlayer (set_bufferControllers None (set_remuxController false (muxer p)))
             (lastCleaningTime p) false false (interval p) (onReady p)
             (lifecycle p ++ destroy_calls eos p).
Proof.
  destruct p as [mx lct mr ms iv orr lc].
  destruct mx as [o fd kp kc rc ct bc sb msb cs].
  unfold destroy, destroy_calls, controller_keys.
  destruct iv, ms, rc, bc as [keys|], eos as [m|];
    cbn -[String.append]; rewrite ?fold_lcall;
    cbv beta iota zeta delta
      [set_mseReady with_muxer lcall set_mediaSource set_remuxController
       set_bufferControllers muxer lastCleaningTime mseReady mediaSource interval
       onReady lifecycle options frameDuration kfPosition kfCounter remuxController
       currentTime bufferControllers sourceBuffers ms_sourceBuffers calls];
    rewrite <- ?app_assoc, ?app_nil_r; reflexivity.
Qed.






(** *** Teardown *)

(** X22 — [destroy()] completes whether or not [endOfStream] throws: it leaves
    the player without remux controller, buffer controllers and media
    source, it has destroyed the remux controller if there was one and
    every buffer controller, and it has left the counter and the ledger
    alone. *)
Theorem destroy_completes (eos : option string) (p : Player) :
  let p' := destroy eos p in
  destroyed p'
  /\ mseReady p' = false
  /\ (remuxController (muxer p) = true -> In lc_rc_destroy (lifecycle p'))
  /\ (forall k, In k (controller_keys (muxer p)) -> In (lc_bc_destroy k) (lifecycle p'))
  /\ kfCounter (muxer p') = kfCounter (muxer p)
  /\ kfPosition (muxer p') = kfPosition (muxer p).
Proof.
  cbn zeta. rewrite destroy_eq. unfold destroyed, destroy_calls. simpl.
  repeat split.
  - intros R. rewrite R. apply in_or_app. right. apply in_or_app. right.
    apply in_or_app. right. apply in_or_app. left. now left.
  - intros k I. apply in_or_app. right. apply in_or_app. right.
    apply in_or_app. right. apply in_or_app. right. now apply in_map.
Qed.

(** X23 — A second [destroy()] only clears the timer again, if the player has
    one: it calls neither [endOfStream] nor any [destroy], and changes no
    field. *)
Theorem destroy_twice (eos eos' : option string) (p : Player) :
  destroy eos' (destroy eos p)
  = if interval p then lcall lc_clearInterval (destroy eos p) else destroy eos p.
Proof.
  rewrite (destroy_eq eos' (destroy eos p)), (destroy_eq eos p).
  unfold destroy_calls, controller_keys. cbn -[String.append].
  destruct (interval p); unfold lcall; cbn -[String.append];
    rewrite ?app_nil_r; reflexivity.
Qed.

Lemma dispatch_destroyed (e : Event) (this : JMuxmer) :
  remuxController this = false ->
  bufferControllers this = None ->
  let this' := state_of (dispatch e this) in
  remuxController this' = false
  /\ bufferControllers this' = None
  /\ kfCounter this' = kfCounter this
  /\ kfPosition this' = kfPosition this
  /\ filter is_remux (calls this') = filter is_remux (calls this).
Proof.
  intros R B. cbn zeta. destruct e as [t pl|t n|q|d]; simpl dispatch.
  - unfold onBuffer, releaseBuffer, bind, get. rewrite B. simpl.
    rewrite B. simpl. auto.
  - destruct (n =? "QuotaExceeded")%string eqn:Q.
    + unfold onBufferError, bind, get. rewrite Q, B. simpl. auto.
    + pose proof (onBufferError_fatal this t n Q) as E. cbn zeta in E.
      simpl dispatch in E. rewrite E.
      destruct ((0 <? List.length (ms_sourceBuffers this))%nat
                && has_key t (sourceBuffers this)); simpl;
        match goal with
        | |- context [(List.length ?l =? 0)%nat] => destruct (List.length l =? 0)%nat
        end; simpl; rewrite ?filter_app; simpl; rewrite ?app_nil_r; auto.
  - simpl. auto.
  - destruct d as [d|]; simpl; [|auto].
    unfold bind, get. rewrite R. simpl. auto.
Qed.

(** X24 — After [destroy()] nothing works any more: a chunk fed is ignored, a
    segment from the remuxer is dropped without any call, a timer tick and
    a call of [createBuffer] do nothing, and a [QuotaExceeded] report finds
    no controller and throws. *)
Theorem destroyed_is_inert
  (p : Player) (data : option Data) (type : string) (payload : bytes)
  (ready : bool) (tracks : list (string * string)) (now now' : Z) :
  destroyed p ->
  feed data (muxer p) = Ok tt (muxer p)
  /\ onBuffer type payload (muxer p) = Ok tt (muxer p)
  /\ onBufferError type "QuotaExceeded" (muxer p) = Throw "TypeError" (muxer p)
  /\ onInterval now now' p = p
  /\ createBuffer supported ready tracks p = p.
Proof.
  intros (R & B & _). repeat split.
  - destruct data as [d|]; [|reflexivity]. unfold feed, bind, get. now rewrite R.
  - unfold onBuffer, releaseBuffer, bind, get. rewrite B. simpl. now rewrite B.
  - unfold onBufferError, bind, get. simpl. now rewrite B.
  - unfold onInterval. now rewrite B.
  - unfold createBuffer. rewrite R. simpl. now rewrite orb_true_r.
Qed.

Lemma ldispatch_destroyed (e : LEvent) (p : Player) :
  destroyed p ->
  let p' := ldispatch supported e p in
  destroyed p'
  /\ kfCounter (muxer p') = kfCounter (muxer p)
  /\ kfPosition (muxer p') = kfPosition (muxer p)
  /\ filter is_remux (calls (muxer p')) = filter is_remux (calls (muxer p))
  /\ filter (fun c => negb (is_onReady c)) (lifecycle p')
     = filter (fun c => negb (is_onReady c)) (lifecycle p)
       ++ match e with
          | le_destroy _ => if interval p then [lc_clearInterval] else []
          | _ => []
          end.
Proof.
  intros D. assert (D' := D). destruct D' as (R & B & M). cbn zeta.
  destruct e as [th r t| |r t|n n'|eos|e]; simpl ldispatch.
  - unfold onMSEOpen, createBuffer. simpl.
    destruct (onReady p), th; simpl; rewrite ?R; simpl; unfold destroyed; simpl;
      rewrite ?filter_app; simpl; rewrite ?app_nil_r; auto 10.
  - unfold destroyed. simpl. rewrite app_nil_r. auto 10.
  - unfold createBuffer. rewrite R. simpl. rewrite orb_true_r, app_nil_r. auto 10.
  - unfold onInterval. rewrite B, app_nil_r. auto 10.
  - rewrite destroy_eq. unfold destroyed. simpl.
    split; [auto|]. split; [reflexivity|]. split; [reflexivity|].
    split; [reflexivity|].
    rewrite filter_app. f_equal.
    unfold destroy_calls, controller_keys. rewrite R, B, M. simpl.
    destruct (interval p); reflexivity.
  - assert (G : let p' := with_muxer (run [e] (muxer p)) p in
                destroyed p'
                /\ kfCounter (muxer p') = kfCounter (muxer p)
                /\ kfPosition (muxer p') = kfPosition (muxer p)
                /\ filter is_remux (calls (muxer p')) = filter is_remux (calls (muxer p))
                /\ filter (fun c => negb (is_onReady c)) (lifecycle p')
                   = filter (fun c => negb (is_onReady c)) (lifecycle p) ++ []).
    { cbn zeta. rewrite run_cons. simpl run.
      destruct (dispatch_destroyed e (muxer p) R B) as (H1 & H2 & H3 & H4 & H5).
      unfold destroyed. simpl. rewrite app_nil_r. auto 10. }
    unfold muxer_event. destruct e; try exact G.
    destruct (negb _ && negb _); [|exact G].
    rewrite app_nil_r. auto 10.
Qed.

Lemma ldispatch_destroyed_calls (e : LEvent) (p : Player) (c : LCall) :
  destroyed p ->
  In c (lifecycle (ldispatch supported e p)) ->
  In c (lifecycle p) \/ c = lc_onReady \/ c = lc_clearInterval.
Proof.
  intros D I. destruct (ldispatch_destroyed e p D) as (_ & _ & _ & _ & F).
  destruct (is_onReady c) eqn:O.
  - destruct c; try discriminate. auto.
  - assert (I' : In c (filter (fun c => negb (is_onReady c))
                              (lifecycle (ldispatch supported e p))))
      by (apply filter_In; now rewrite O).
    rewrite F in I'. apply in_app_or in I' as [I'|I'].
    + apply filter_In in I' as [I' _]. auto.
    + destruct e; simpl in I'; try tauto.
      destruct (interval p); simpl in I'; intuition auto.
Qed.

(** X25 — Teardown is permanent.  Through any sequence of later events a
    destroyed player stays destroyed: nothing is remuxed, the counter and
    the ledger stay as they were, and the only life-cycle calls still made
    are the caller's [onReady] and the clearing of the timer, so no buffer
    is created. *)
Theorem destroy_is_permanent (es : list LEvent) (p : Player) :
  destroyed p ->
  let p' := lrun supported es p in
  destroyed p'
  /\ kfCounter (muxer p') = kfCounter (muxer p)
  /\ kfPosition (muxer p') = kfPosition (muxer p)
  /\ filter is_remux (calls (muxer p')) = filter is_remux (calls (muxer p))
  /\ (forall c, In c (lifecycle p') ->
                In c (lifecycle p) \/ c = lc_onReady \/ c = lc_clearInterval).
Proof.
  cbn zeta. unfold lrun. revert p.
  induction es as [|e es IH]; intros p D; simpl; [auto 10|].
  destruct (ldispatch_destroyed e p D) as (D1 & K1 & K2 & K3 & _).
  destruct (IH _ D1) as (D2 & H1 & H2 & H3 & H4).
  split; [exact D2|]. split; [congruence|]. split; [congruence|].
  split; [congruence|].
  intros c I. destruct (H4 c I) as [I'|I']; [|auto].
  exact (ldispatch_destroyed_calls e p c D I').
Qed.

End LifecycleMore.

(** ** Examples for the further properties *)

Lemma frames_hold_vcl_witness :
  existsb isvcl (map (load (P := h264))
                     [sei_unit; idr_slice; sei_unit; ndr_slice; sei_unit]) = true
  /\ Forall (fun f => existsb isvcl (units f) = true)
       (fst (getVideoFrames (P := h264) both_30fps
               [sei_unit; idr_slice; sei_unit; ndr_slice; sei_unit] 0)).
Proof.
  assert (H : existsb isvcl (map (load (P := h264))
                [sei_unit; idr_slice; sei_unit; ndr_slice; sei_unit]) = true)
    by reflexivity.
  split; [exact H | exact (frames_hold_vcl (P := h264) both_30fps _ 0 H)].
Defined.

Lemma no_vcl_single_frame_witness :
  [sei_unit; sei_unit] <> []
  /\ existsb isvcl (map (load (P := h264)) [sei_unit; sei_unit]) = false
  /\ map units (fst (getVideoFrames (P := h264) both_30fps [sei_unit; sei_unit] 40))
     = [map (load (P := h264)) [sei_unit; sei_unit]].
Proof.
  assert (H1 : [sei_unit; sei_unit] <> []) by discriminate.
  assert (H2 : existsb isvcl (map (load (P := h264)) [sei_unit; sei_unit]) = false)
    by reflexivity.
  split; [exact H1|]. split; [exact H2|].
  exact (no_vcl_single_frame (P := h264) both_30fps _ 40 H1 H2).
Defined.

Lemma frame_count_bounds_witness :
  [idr_slice; ndr_slice; sei_unit] <> []
  /\ (1 <= List.length (fst (getVideoFrames (P := h264) both_30fps
                               [idr_slice; ndr_slice; sei_unit] 0))
      <= 3)%nat.
Proof.
  assert (H : [idr_slice; ndr_slice; sei_unit] <> []) by discriminate.
  split; [exact H|].
  exact (proj2 (frame_count_bounds (P := h264) both_30fps _ 0 H)).
Defined.

Lemma clear_offset_exact_witness :
  getSafeClearOffsetOfBuffer four_keyframes (Qmake 1 10)
  = (Qmake 66 1000,
     set_kf four_keyframes (kfCounter four_keyframes) [Qmake 99 1000; Qmake 132 1000]).
Proof.
  apply (clear_offset_exact four_keyframes (Qmake 1 10) [Qmake 33 1000] [Qmake 132 1000]).
  - exact four_keyframes_ledger.
  - rewrite four_keyframes_ledger. repeat constructor.
  - reflexivity.
  - repeat constructor. discriminate.
  - discriminate.
Defined.

Lemma clear_offset_entry_bound_witness :
  (fst (getSafeClearOffsetOfBuffer four_keyframes (Qmake 1 10)) <= Qmake 66 1000)%Q
  /\ (fst (getSafeClearOffsetOfBuffer (new_JMuxmer (mkOptions "audio" true) 33) 12)
      == 12)%Q.
Proof.
  destruct (clear_offset_entry_bound four_keyframes (Qmake 1 10)) as [V _].
  destruct (clear_offset_entry_bound (new_JMuxmer (mkOptions "audio" true) 33) 12) as [_ A].
  split.
  - apply V with (k := Qmake 99 1000).
    + vm_compute. reflexivity.
    + rewrite four_keyframes_ledger. repeat constructor; discriminate.
    + rewrite four_keyframes_ledger. split; [simpl; tauto|].
      split; [discriminate|].
      intros e [<-|[<-|[<-|[<-|[]]]]] L; try discriminate.
      exfalso. apply L. reflexivity.
    + rewrite four_keyframes_ledger.
      apply (sorted_entry_before [Qmake 33 1000] [Qmake 132 1000]).
      repeat constructor.
  - apply A; [reflexivity | simpl; lia].
Defined.

Lemma ledger_ascending_growing_fd_witness :
  growing_fd (P := h264) 33 0 growing_durations
  /\ ascending (kfPosition (fold_left (apply_op (P := h264)) growing_durations
                                      (new_JMuxmer (mkOptions "both" true) 33))).
Proof.
  assert (H : growing_fd (P := h264) 33 0 growing_durations)
    by (vm_compute; intuition discriminate).
  split; [exact H|].
  exact (proj1 (ledger_ascending_growing_fd (P := h264) (mkOptions "both" true) 33
                  growing_durations H)).
Defined.

Lemma growing_durations_ledger :
  kfPosition (fold_left (apply_op (P := h264)) growing_durations
                        (new_JMuxmer (mkOptions "both" true) 33))
  = [Qmake 33 1000; Qmake 68 1000; Qmake 120 1000].
Proof. vm_compute. reflexivity. Qed.

(** The scanner of the examples takes a complete frame and discards a
    partial header. *)
Lemma one_adts_examples :
  one_adts adts_frame = [[x21]] /\ one_adts [xff; xf1; x50; x80] = [].
Proof. split; reflexivity. Qed.

Lemma feed_remuxes_once_witness :
  remuxController both_30fps = true
  /\ (video_slices (P := h264) (idr_chunk (Some 40)) <> []
      \/ audio_slices (P := h264) (idr_chunk (Some 40)) <> [])
  /\ exists this1 logged,
       feed (P := h264) (Some (idr_chunk (Some 40))) both_30fps
       = Ok tt (call (rc_remux
                        (fst (getVideoFrames (P := h264) both_30fps
                                (video_slices (P := h264) (idr_chunk (Some 40))) 40))
                        (getAudioFrames this1
                           (audio_slices (P := h264) (idr_chunk (Some 40))) 40))
                     this1)
       /\ calls this1 = calls both_30fps ++ logged.
Proof.
  assert (H1 : remuxController both_30fps = true) by reflexivity.
  assert (H2 : video_slices (P := h264) (idr_chunk (Some 40)) <> []
               \/ audio_slices (P := h264) (idr_chunk (Some 40)) <> [])
    by (left; discriminate).
  split; [exact H1|]. split; [exact H2|].
  destruct (feed_remuxes_once (P := h264) both_30fps (idr_chunk (Some 40)) H1 H2)
    as (this1 & logged & E & C & _).
  exists this1, logged. split; [exact E | exact C].
Defined.

Lemma feed_without_video_keeps_ledger_witness :
  video_slices (P := h264) audio_chunk = []
  /\ kfCounter (state_of (feed (P := h264) (Some audio_chunk) four_keyframes))
     = kfCounter four_keyframes.
Proof.
  assert (H : video_slices (P := h264) audio_chunk = []) by reflexivity.
  split; [exact H|].
  exact (proj1 (feed_without_video_keeps_ledger (P := h264) four_keyframes audio_chunk H)).
Defined.

(** A segment for a track is fed and appended; one whose type is
    [toString] finds the inherited member, and the handler throws before
    any append. *)
Lemma onBuffer_examples :
  calls (state_of (onBuffer "video" [x01] playing))
  = [bc_feed "video" [x01]; bc_doAppend "video"; bc_doAppend "audio"]
  /\ calls (state_of (onBuffer "text" [x01] playing))
     = [bc_doAppend "video"; bc_doAppend "audio"]
  /\ onBuffer "toString" [x01] playing = Throw "TypeError" playing.
Proof. repeat split. Qed.

Lemma all_tracks_fail_witness :
  calls (run (P := h264)
             (map (fun type => ev_error type "InvalidStateError")
                  ["video"; "audio"]%string) playing)
  = calls playing
    ++ map ms_removeSourceBuffer ["video"; "audio"]%string ++ [ms_endOfStream].
Proof.
  apply (all_tracks_fail (P := h264) "InvalidStateError" ["video"; "audio"]%string playing).
  - reflexivity.
  - constructor; [simpl; intros [H|[]]; discriminate H|].
    constructor; [simpl; tauto | constructor].
  - discriminate.
  - reflexivity.
  - reflexivity.
Defined.

Lemma frameDuration_of_rate_witness :
  1 <= 25 <= 1000 /\ frameDuration_of (Some 25) = 1000 / 25.
Proof.
  assert (H : 1 <= 25 <= 1000) by lia.
  split; [exact H|].
  exact (proj1 (proj1 (frameDuration_of_rate (Some 25)) H)).
Defined.

Lemma durationless_ledger_ascending_witness :
  ascending (kfPosition
               (fold_left (apply_op (P := h264)) three_operations
                          (muxer (constructor (mkUserOptions None None (Some 25) false) 0)))).
Proof.
  apply (durationless_ledger_ascending (P := h264)).
  - simpl. right. lia.
  - repeat constructor.
Defined.

Lemma cleaning_pass_witness :
  calls (muxer (onInterval 20000 20001 streaming))
  = calls (muxer streaming)
    ++ [bc_initCleanup "video"
          (fst (getSafeClearOffsetOfBuffer (muxer streaming) (Qmake 1 10)));
        bc_initCleanup "audio" 0%Q].
Proof.
  exact (proj1 (cleaning_pass streaming 20000 20001 "video" ["audio"%string]
                  eq_refl eq_refl eq_refl)).
Defined.

Lemma tick_cleans_within_position_witness :
  (0 <= currentTime (muxer streaming))%Q
  /\ exists limits,
       calls (muxer (onInterval 20000 20001 streaming))
       = calls (muxer streaming)
         ++ map (fun kl => bc_initCleanup (fst kl) (snd kl))
                (combine (controller_keys (muxer streaming)) limits)
       /\ Forall (fun l => (l <= currentTime (muxer streaming))%Q) limits.
Proof.
  assert (H : (0 <= currentTime (muxer streaming))%Q) by discriminate.
  split; [exact H|].
  destruct (tick_cleans_within_position streaming 20000 20001 H) as (ls & C & _ & F).
  exists ls. split; [exact C | exact F].
Defined.

Lemma passes_apart_witness :
  Forall (fun t => fst t <= snd t) three_ticks
  /\ StronglySorted (fun a b => a + 10000 < b) (snd (ticks three_ticks streaming)).
Proof.
  assert (H : Forall (fun t => fst t <= snd t) three_ticks)
    by (repeat constructor; simpl; lia).
  split; [exact H | exact (proj1 (passes_apart three_ticks streaming H))].
Defined.

Lemma three_ticks_passes : snd (ticks three_ticks streaming) = [20000; 31000].
Proof. vm_compute. reflexivity. Qed.

Lemma av_tracks_NoDup : NoDup (map fst av_tracks).
Proof.
  constructor; [simpl; intros [H|[]]; discriminate H|].
  constructor; [simpl; tauto | constructor].
Qed.

(** With a browser that supports the video codec only, the video buffer is
    created, the audio buffer is not, and an error is logged. *)
Lemma createBuffer_result_witness :
  bufferControllers (muxer (createBuffer video_only true av_tracks opened))
  = Some ["video"%string]
  /\ lifecycle (createBuffer video_only true av_tracks opened)
     = [lc_addSourceBuffer (mime_of "video" "avc1.42E01E");
        lc_new_BufferController "video";
        lc_error "Browser does not support codec"].
Proof.
  destruct (createBuffer_result video_only av_tracks opened
              eq_refl eq_refl eq_refl eq_refl av_tracks_NoDup) as (H1 & _ & _ & H4).
  split; [exact H1 | exact H4].
Defined.



(** The callback that threw at the first opening is called again at the
    second, and not at the third; the first opening created no buffer. *)
Lemma throwing_callback_called_twice :
  ready_count (lrun (P := h264) (fun _ => true) throwing_callback fresh) = 2%nat
  /\ throwing_opens throwing_callback = 1%nat
  /\ bufferControllers
       (muxer (lrun (P := h264) (fun _ => true) [le_open true true av_tracks] fresh))
     = None.
Proof. vm_compute. repeat split. Qed.

Lemma destroy_completes_witness :
  remuxController (muxer streaming) = true
  /\ In lc_rc_destroy (lifecycle (destroy (Some "closed"%string) streaming))
  /\ In (lc_bc_destroy "audio") (lifecycle (destroy (Some "closed"%string) streaming)).
Proof.
  assert (H : remuxController (muxer streaming) = true) by reflexivity.
  destruct (destroy_completes (Some "closed"%string) streaming) as (_ & _ & R & K & _).
  split; [exact H|]. split; [exact (R H)|].
  apply K. simpl. auto.
Defined.

Lemma destroyed_is_inert_witness :
  destroyed (destroy None streaming)
  /\ feed (P := h264) (Some (idr_chunk None)) (muxer (destroy None streaming))
     = Ok tt (muxer (destroy None streaming)).
Proof.
  assert (H : destroyed (destroy None streaming)) by (repeat split).
  split; [exact H|].
  exact (proj1 (destroyed_is_inert (P := h264) (fun _ => true) (destroy None streaming)
                  (Some (idr_chunk None)) "video" [] true av_tracks 0 0 H)).
Defined.

Lemma destroy_is_permanent_witness :
  destroyed (destroy None streaming)
  /\ destroyed (lrun (P := h264) (fun _ => true) late_events (destroy None streaming)).
Proof.
  assert (H : destroyed (destroy None streaming)) by (repeat split).
  split; [exact H|].
  exact (proj1 (destroy_is_permanent (P := h264) (fun _ => true) late_events
                  (destroy None streaming) H)).
Defined.
